(** * Mondrian-style interactive grid (Assignment2/sketch.js)

    A shallow embedding of the sketch: the grid geometry, the anchor based
    colour assignment, the rejection-sampling line generator, the eased
    interpolation and the three-mode controller driven by press, release
    and frame events.

    Number model.  JavaScript numbers are modelled as exact rationals [Q];
    equality of numbers is [Qeq] ([==]).  The only place where the sketch can
    produce a value that is not a number is the read [a[i]] past the end of an
    array inside [lerpArray]; such values are modelled by [jsnum].
    Array lengths, loop counters and cell indices are integers.

    Host model.  The p5 runtime is outside the sketch: its clock [millis()] is
    an input of the events, its random source is a stream of samples from
    [0,1), and its drawing primitives are recorded as a list of commands. *)

From Stdlib Require Import QArith Qround Qabs Qminmax Lqa Lia ZArith List Sorted Permutation Bool.
From stdpp Require Import base option list gmap.
Import ListNotations.

Local Open Scope Q_scope.

(** ** Numbers *)

(** [x < y] and [x >= y] as the booleans JavaScript computes. *)
Definition Qltb (x y : Q) : bool := negb (Qle_bool y x).
Definition Qgeb (x y : Q) : bool := Qle_bool y x.

(** A number read from an array slot that may not exist: [a[i]] is
    [undefined] past the end, and arithmetic on [undefined] gives [NaN]. *)
Inductive jsnum : Type :=
| Num (q : Q)
| NaN.

Definition jsnum_eq (a b : jsnum) : Prop :=
  match a, b with
  | Num x, Num y => x == y
  | NaN, NaN => True
  | _, _ => False
  end.

(** p5 [constrain(n, low, high)] is [Math.max(Math.min(n, high), low)]. *)
Definition constrain (n low high : Q) : Q := Qmax (Qmin n high) low.

(** p5 [lerp(start, stop, amt)] is [amt * (stop - start) + start]. *)
Definition lerpQ (start stop amt : Q) : Q := amt * (stop - start) + start.

Definition lerp (start stop : jsnum) (amt : Q) : jsnum :=
  match start, stop with
  | Num a, Num b => Num (lerpQ a b amt)
  | _, _ => NaN
  end.

(** ** Canvas and style *)

Definition W : Q := 820.
Definition H : Q := 600.
Definition LINE_W : Q := 8.
Definition MARGIN : Q := 10.
Definition TRANSITION_MS : Q := 1100.

(** ** Array.prototype.sort with the comparator [(a, b) => a - b]

    The engine's algorithm is not fixed by the language, only its result: a
    stable arrangement in which the comparator never reports an inversion.
    A stable insertion sort computes that arrangement. *)

Definition compareAsc (a b : Q) : Q := a - b.

Fixpoint insertAsc (a : Q) (l : list Q) : list Q :=
  match l with
  | [] => [a]
  | b :: l' => if Qle_bool (compareAsc a b) 0 then a :: b :: l' else b :: insertAsc a l'
  end.

Definition sortAsc (l : list Q) : list Q := foldr insertAsc [] l.

(** [[0, ...arr.slice().sort((a,b)=>a-b), extent]] *)
Definition boundaries (arr : list Q) (extent : Q) : list Q :=
  0 :: sortAsc arr ++ [extent].

(** [xs[i]] for an index inside the array. *)
Definition at_ (xs : list Q) (i : nat) : Q := nth i xs 0.

(** ** Grid bookkeeping *)

Record cell : Type := mkCell {
  cell_x : Q; cell_y : Q; cell_w : Q; cell_h : Q;
  cell_i : nat; cell_j : nat
}.

Definition computeCellsFor (vArr hArr : list Q) : list cell :=
  let xs := boundaries vArr W in
  let ys := boundaries hArr H in
  flat_map (fun j =>
    map (fun i =>
      {| cell_x := at_ xs i;
         cell_y := at_ ys j;
         cell_w := at_ xs (i + 1) - at_ xs i;
         cell_h := at_ ys (j + 1) - at_ ys j;
         cell_i := i; cell_j := j |})
      (seq 0 (length xs - 1)))
    (seq 0 (length ys - 1)).

(** The linear index of a cell in a grid of [columns] columns. *)
Definition linearIndex (columns : nat) (c : cell) : nat :=
  (cell_j c * columns + cell_i c)%nat.

(** ** Colours, anchors and the cell-index map

    A [Map<cellIndex, p5.Color>] is a finite map from integers to colours. *)

Inductive color : Type := Color (r g b : Z).

Record target : Type := mkTarget { pcx : Q; pcy : Q; col : color }.

(** The [for] loop shared by [xIndexFor] and [yIndexFor]: [i] is the loop
    variable and [n] the number of iterations left before [i] reaches
    [xs.length - 1]. *)
Fixpoint xIndexFor_loop (x : Q) (xs : list Q) (i n : nat) : option nat :=
  match n with
  | O => None
  | S n' =>
      if Qgeb x (at_ xs i) && Qltb x (at_ xs (i + 1)) then Some i
      else xIndexFor_loop x xs (i + 1) n'
  end.

Definition xIndexFor (x : Q) (xs : list Q) : Z :=
  match xIndexFor_loop x xs 0 (length xs - 1) with
  | Some i => Z.of_nat i
  | None => Z.of_nat (length xs) - 2
  end.

Fixpoint yIndexFor_loop (y : Q) (ys : list Q) (j n : nat) : option nat :=
  match n with
  | O => None
  | S n' =>
      if Qgeb y (at_ ys j) && Qltb y (at_ ys (j + 1)) then Some j
      else yIndexFor_loop y ys (j + 1) n'
  end.

Definition yIndexFor (y : Q) (ys : list Q) : Z :=
  match yIndexFor_loop y ys 0 (length ys - 1) with
  | Some j => Z.of_nat j
  | None => Z.of_nat (length ys) - 2
  end.

Definition colorMapFromTargets (targets : list target) (vArr hArr : list Q)
  : gmap Z color :=
  let xs := boundaries vArr W in
  let ys := boundaries hArr H in
  fold_left (fun (m : gmap Z color) t =>
    let x := constrain (pcx t) 0 1 * W in
    let y := constrain (pcy t) 0 1 * H in
    let i := xIndexFor x xs in
    let j := yIndexFor y ys in
    let idx := (j * (Z.of_nat (length xs) - 1) + i)%Z in
    <[idx := col t]> m) targets ∅.

(** ** Rendering

    The p5 drawing calls of one frame, in the order they are issued. *)

Inductive cmd : Type :=
| Background (gray : Z)
| Stroke (gray : Z)
| StrokeWeight (w : Q)
| NoStroke
| Fill (c : color)
| Rect (x y w h : Q)
| Line (x1 y1 x2 y2 : jsnum).

Definition drawGrid (vArr hArr : list jsnum) : list cmd :=
  [Stroke 0; StrokeWeight LINE_W]
  ++ map (fun x => Line x (Num 0) x (Num H)) ([Num 0] ++ vArr ++ [Num W])
  ++ map (fun y => Line (Num 0) y (Num W) y) ([Num 0] ++ hArr ++ [Num H]).

Definition drawColorsFromMap (map_ : gmap Z color) (vArr hArr : list Q) : list cmd :=
  let xs := boundaries vArr W in
  let ys := boundaries hArr H in
  NoStroke ::
  flat_map (fun j =>
    flat_map (fun i =>
      let idx := (Z.of_nat j * (Z.of_nat (length xs) - 1) + Z.of_nat i)%Z in
      match map_ !! idx with
      | None => []
      | Some c =>
          [Fill c;
           Rect (at_ xs i) (at_ ys j)
                (at_ xs (i + 1) - at_ xs i) (at_ ys (j + 1) - at_ ys j)]
      end)
      (seq 0 (length xs - 1)))
    (seq 0 (length ys - 1)).

(** ** Interpolation *)

(** [a[i]] where the slot may be missing. *)
Definition slot (a : list Q) (i : nat) : jsnum :=
  match a !! i with
  | Some q => Num q
  | None => NaN
  end.

Definition lerpArray (a b : list Q) (t : Q) : list jsnum :=
  imap (fun i bi => lerp (slot a i) (Num bi) t) b.

Definition easeInOutCubic (t : Q) : Q :=
  if Qltb t 0.5 then 4 * t * t * t else 1 - (-2 * t + 2) ^ 3 / 2.

(** ** The host's random source

    [Math.random()] returns a number in [0,1); a sample carries that bound.
    The source is the stream of its successive samples, and the position in
    the stream is part of the program state. *)

Record sample : Type := mkSample {
  sample_val : Q;
  sample_unit : Qgeb sample_val 0 && Qltb sample_val 1 = true
}.

Section Random.

Variable rnd : nat -> sample.

(** p5 [random(max)]: [rand * max], using sample number [k]. *)
Definition random1 (k : nat) (max : Q) : Q := sample_val (rnd k) * max.

(** p5 [random(min, max)]: the bounds are swapped when [min > max], then
    [rand * (max - min) + min]. *)
Definition random2 (k : nat) (min max : Q) : Q :=
  let lo := if Qltb max min then max else min in
  let hi := if Qltb max min then min else max in
  sample_val (rnd k) * (hi - lo) + lo.

(** *** Line generator *)

Definition triesLimit : nat := 5000.

(** The [while] loop of [makeRandomLines].  [left] is
    [triesLimit - tries], so the test [tries < triesLimit] is [left > 0];
    [k] is the position in the random stream, which advances with
    [tries]. *)
Fixpoint makeRandomLines_loop (left : nat) (count : nat) (span margin minGap : Q)
    (picks : list Q) (k : nat) : list Q * nat :=
  match left with
  | O => (picks, k)
  | S left' =>
      if (length picks <? count)%nat then
        let x := random2 k (margin + LINE_W) (span - margin - LINE_W) in
        let picks' :=
          if forallb (fun p => Qgeb (Qabs (p - x)) minGap) picks
          then picks ++ [x] else picks in
        makeRandomLines_loop left' count span margin minGap picks' (S k)
      else (picks, k)
  end.

Definition makeRandomLines (count : nat) (span margin minGap : Q) (k : nat)
  : list Q * nat :=
  let '(picks, k') := makeRandomLines_loop triesLimit count span margin minGap [] k in
  (sortAsc picks, k').

(** *** Fisher-Yates shuffle *)

(** [t = arr[i]; arr[i] = arr[j]; arr[j] = t].  Both indices are inside
    the array whenever [j <= i < arr.length], which the loop below
    guarantees (see [shuffle_index_le] and [swap_in_range]). *)
Definition swap (arr : list Z) (i j : nat) : list Z :=
  match arr !! i, arr !! j with
  | Some t, Some aj => <[j := t]> (<[i := aj]> arr)
  | _, _ => arr
  end.

(** The loop runs [i] from [arr.length - 1] down to 1; the argument [n] is
    the current [i]. *)
Fixpoint shuffle_loop (n : nat) (arr : list Z) (k : nat) : list Z * nat :=
  match n with
  | O => (arr, k)
  | S n' =>
      let i := n in
      let j := Z.to_nat (Qfloor (random1 k (inject_Z (Z.of_nat i + 1)))) in
      shuffle_loop n' (swap arr i j) (S k)
  end.

Definition shuffleInPlace (arr : list Z) (k : nat) : list Z * nat :=
  shuffle_loop (length arr - 1) arr k.

End Random.

(** ** Program state *)

Inductive mode_t : Type := Original | Randomized | Transition.

Record state : Type := mkState {
  vLines : list Q;
  hLines : list Q;
  cells : list cell;
  originalV : list Q;
  originalH : list Q;
  originalColorsMap : gmap Z color;
  originalColorTargets : list target;
  randomColorsMap : gmap Z color;
  mode : mode_t;
  tStart : Q;
  vStart : list Q;
  hStart : list Q;
  rngPos : nat
}.

(** The module-level initialisers. *)
Definition initial : state :=
  {| vLines := []; hLines := []; cells := [];
     originalV := []; originalH := [];
     originalColorsMap := ∅; originalColorTargets := [];
     randomColorsMap := ∅;
     mode := Original; tStart := 0; vStart := []; hStart := [];
     rngPos := 0 |}.

Definition setup (s : state) : state :=
  let originalV' := [90; 320; 360; 560] in
  let originalH' := [90; 250; 290; 380; 540] in
  let targets :=
    [ mkTarget 0.24 0.63 (Color 25 80 180);
      mkTarget 0.83 0.22 (Color 25 80 180);
      mkTarget 0.06 0.05 (Color 210 25 45);
      mkTarget 0.51 0.78 (Color 210 25 45);
      mkTarget 0.38 0.18 (Color 245 205 35);
      mkTarget 0.90 0.92 (Color 245 205 35) ] in
  {| vLines := originalV'; hLines := originalH';
     cells := computeCellsFor originalV' originalH';
     originalV := originalV'; originalH := originalH';
     originalColorsMap := colorMapFromTargets targets originalV' originalH';
     originalColorTargets := targets;
     randomColorsMap := randomColorsMap s;
     mode := mode s; tStart := tStart s; vStart := vStart s; hStart := hStart s;
     rngPos := rngPos s |}.

(** [draw()] at clock value [now]: the next state and the frame's drawing
    calls. *)
Definition draw (now : Q) (s : state) : state * list cmd :=
  match mode s with
  | Transition =>
      let u := constrain ((now - tStart s) / TRANSITION_MS) 0 1 in
      let t := easeInOutCubic u in
      let vCurr := lerpArray (vStart s) (originalV s) t in
      let hCurr := lerpArray (hStart s) (originalH s) t in
      let frame := Background 255 :: drawGrid vCurr hCurr in
      if Qgeb u 1 then
        ({| vLines := originalV s; hLines := originalH s;
            cells := computeCellsFor (originalV s) (originalH s);
            originalV := originalV s; originalH := originalH s;
            originalColorsMap := originalColorsMap s;
            originalColorTargets := originalColorTargets s;
            randomColorsMap := randomColorsMap s;
            mode := Original;
            tStart := tStart s; vStart := vStart s; hStart := hStart s;
            rngPos := rngPos s |}, frame)
      else (s, frame)
  | Randomized =>
      (s, Background 255
          :: drawColorsFromMap (randomColorsMap s) (vLines s) (hLines s)
          ++ drawGrid (map Num (vLines s)) (map Num (hLines s)))
  | Original =>
      (s, Background 255
          :: drawColorsFromMap (originalColorsMap s) (vLines s) (hLines s)
          ++ drawGrid (map Num (vLines s)) (map Num (hLines s)))
  end.

(** The host calls [setup] once and then delivers presses, releases and
    frames; a release and a frame come with the value [millis()] returns
    inside the handler. *)
Inductive event : Type :=
| Press
| Release (now : Q)
| Frame (now : Q).

Section Interaction.

Variable rnd : nat -> sample.

(** The loop of [mousePressed] that fills [randomColorsMap] after
    [randomColorsMap.clear()]. *)
Definition assignPalette (palette : list color) (indices : list Z) : gmap Z color :=
  fold_left (fun (m : gmap Z color) i =>
    match indices !! i, palette !! (i mod length palette)%nat with
    | Some key, Some c => <[key := c]> m
    | _, _ => m
    end)
    (seq 0 (Nat.min (length palette) (length indices))) ∅.

(** [recomputeCells()] is [cells = computeCellsFor(vLines, hLines)];
    [indices] starts as [[...cells.keys()]], the numbers below
    [cells.length]. *)
Definition mousePressed (s : state) : state :=
  let '(vLines', k1) :=
    makeRandomLines rnd (length (originalV s)) W MARGIN 60 (rngPos s) in
  let '(hLines', k2) :=
    makeRandomLines rnd (length (originalH s)) H MARGIN 60 k1 in
  let cells' := computeCellsFor vLines' hLines' in
  let palette := map col (originalColorTargets s) in
  let '(indices, k3) :=
    shuffleInPlace rnd (map Z.of_nat (seq 0 (length cells'))) k2 in
  {| vLines := vLines'; hLines := hLines'; cells := cells';
     originalV := originalV s; originalH := originalH s;
     originalColorsMap := originalColorsMap s;
     originalColorTargets := originalColorTargets s;
     randomColorsMap := assignPalette palette indices;
     mode := Randomized;
     tStart := tStart s; vStart := vStart s; hStart := hStart s;
     rngPos := k3 |}.

Definition mouseReleased (now : Q) (s : state) : state :=
  {| vLines := vLines s; hLines := hLines s; cells := cells s;
     originalV := originalV s; originalH := originalH s;
     originalColorsMap := originalColorsMap s;
     originalColorTargets := originalColorTargets s;
     randomColorsMap := randomColorsMap s;
     mode := Transition;
     tStart := now; vStart := vLines s; hStart := hLines s;
     rngPos := rngPos s |}.

(** *** Runs of the sketch *)

Definition step (s : state) (e : event) : state :=
  match e with
  | Press => mousePressed s
  | Release now => mouseReleased now s
  | Frame now => fst (draw now s)
  end.

Definition run (events : list event) : state :=
  fold_left step events (setup initial).

End Interaction.

(** * Vocabulary of the properties *)

(** [x] lies in the half-open interval number [i] of the boundaries [xs]. *)
Definition inInterval (x : Q) (xs : list Q) (i : nat) : Prop :=
  at_ xs i <= x /\ x < at_ xs (i + 1).


(** Two positions are at least [minGap] apart. *)
Definition separated (minGap : Q) (p q : Q) : Prop := minGap <= Qabs (p - q).

(** A frame is coloured when it sets a fill colour or draws a rectangle. *)
Definition isColor (c : cmd) : bool :=
  match c with
  | Fill _ | Rect _ _ _ _ => true
  | _ => false
  end.

Definition colored (frame : list cmd) : bool := existsb isColor frame.

(** Number of cells of the grid cut by the state's authoritative lines. *)
Definition cellCount (s : state) : Z :=
  ((Z.of_nat (length (vLines s)) + 1) * (Z.of_nat (length (hLines s)) + 1))%Z.

Record inv (s : state) : Prop := mkInv {
  inv_originalV : originalV s = [90; 320; 360; 560];
  inv_originalH : originalH s = [90; 250; 290; 380; 540];
  inv_targets : originalColorTargets s = originalColorTargets (setup initial);
  inv_originalMap : originalColorsMap s = originalColorsMap (setup initial);
  inv_vCount : (length (vLines s) <= 4)%nat;
  inv_hCount : (length (hLines s) <= 5)%nat;
  inv_cells : cells s = computeCellsFor (vLines s) (hLines s);
  inv_original :
    mode s = Original -> vLines s = originalV s /\ hLines s = originalH s;
  inv_randomized :
    mode s = Randomized ->
    (exists key, is_Some (randomColorsMap s !! key))
    /\ forall key, is_Some (randomColorsMap s !! key) -> (0 <= key < cellCount s)%Z
}.

(** Two random sources used to run the sketch on concrete inputs: the
    constant source, and one that cycles through the eighths. *)
Definition zero_sample : sample := mkSample 0 eq_refl.

Definition eighths (k : nat) : sample :=
  match (k mod 8)%nat with
  | 0%nat => mkSample 0 eq_refl
  | 1%nat => mkSample (1 # 8) eq_refl
  | 2%nat => mkSample (2 # 8) eq_refl
  | 3%nat => mkSample (3 # 8) eq_refl
  | 4%nat => mkSample (4 # 8) eq_refl
  | 5%nat => mkSample (5 # 8) eq_refl
  | 6%nat => mkSample (6 # 8) eq_refl
  | _ => mkSample (7 # 8) eq_refl
  end.

(** The cell index [colorMapFromTargets] computes for one anchor. *)
Definition targetIndex (t : target) (vArr hArr : list Q) : Z :=
  let xs := boundaries vArr W in
  let ys := boundaries hArr H in
  (yIndexFor (constrain (pcy t) 0 1 * H) ys * (Z.of_nat (length xs) - 1)
   + xIndexFor (constrain (pcx t) 0 1 * W) xs)%Z.


(** The sum of [f i] for [i] in [start, start + n). *)
Definition sumOver (f : nat -> Q) (start n : nat) : Q :=
  fold_right (fun i acc => f i + acc) 0 (seq start n).

(** Commands that stroke: the grid pass of a frame. *)
Definition isStroke (c : cmd) : bool :=
  match c with
  | Stroke _ | StrokeWeight _ | Line _ _ _ _ => true
  | _ => false
  end.

(** The linear index of a cell as a key of a colour map. *)
Definition cellKey (columns : nat) (c : cell) : Z :=
  Z.of_nat (linearIndex columns c).

(** Events that are frames. *)
Definition isFrame (e : event) : bool :=
  match e with
  | Frame _ => true
  | _ => false
  end.

(** Cut positions strictly inside the extent and pairwise different. *)
Definition properCuts (extent : Q) (l : list Q) : Prop :=
  Forall (fun x => 0 < x /\ x < extent) l
  /\ ForallOrdPairs (fun p q => ~ p == q) l.

(** * Properties *)

(** ** Comparisons *)

Lemma Qltb_lt x y : Qltb x y = true <-> x < y.
Proof.
  unfold Qltb. rewrite negb_true_iff, <- not_true_iff_false, Qle_bool_iff.
  split; [apply Qnot_le_lt | apply Qlt_not_le].
Qed.

Lemma Qgeb_ge x y : Qgeb x y = true <-> y <= x.
Proof. apply Qle_bool_iff. Qed.

(** ** Sorting facts *)

Lemma insertAsc_length a l : length (insertAsc a l) = S (length l).
Proof.
  induction l as [|b l IH]; simpl; [reflexivity|].
  destruct (Qle_bool _ _); simpl; [reflexivity | now rewrite IH].
Qed.

Lemma sortAsc_length l : length (sortAsc l) = length l.
Proof.
  induction l as [|a l IH]; simpl; [reflexivity|].
  now rewrite insertAsc_length, IH.
Qed.

Lemma boundaries_length arr extent : length (boundaries arr extent) = (length arr + 2)%nat.
Proof.
  unfold boundaries. simpl. rewrite length_app, sortAsc_length. simpl. lia.
Qed.

(** ** The cells of a grid *)

Lemma row_major_indices (columns : nat) (f : nat -> nat -> cell) (rows : nat) :
  (forall i j, cell_i (f i j) = i /\ cell_j (f i j) = j) ->
  forall start,
  map (linearIndex columns)
      (flat_map (fun j => map (fun i => f i j) (seq 0 columns)) (seq start rows))
  = seq (start * columns) (rows * columns).
Proof.
  intros Hf. induction rows as [|rows IH]; intros start; simpl; [reflexivity|].
  rewrite map_app, IH, seq_app. f_equal.
  - rewrite map_map. unfold linearIndex.
    rewrite <- (Nat.add_0_r (start * columns)).
    rewrite <- (fmap_add_seq (start * columns) 0 columns).
    apply map_ext. intros i. destruct (Hf i start) as [-> ->]. reflexivity.
  - f_equal. lia.
Qed.

Lemma computeCellsFor_indices (vArr hArr : list Q) :
  map (linearIndex (length vArr + 1)) (computeCellsFor vArr hArr)
  = seq 0 ((length vArr + 1) * (length hArr + 1)).
Proof.
  unfold computeCellsFor. rewrite !boundaries_length.
  replace (length vArr + 2 - 1)%nat with (length vArr + 1)%nat by lia.
  replace (length hArr + 2 - 1)%nat with (length hArr + 1)%nat by lia.
  rewrite (row_major_indices (length vArr + 1)
             (fun i j => mkCell _ _ _ _ i j) (length hArr + 1)
             (fun _ _ => conj eq_refl eq_refl) 0).
  f_equal. lia.
Qed.

Lemma computeCellsFor_length (vArr hArr : list Q) :
  length (computeCellsFor vArr hArr) = ((length vArr + 1) * (length hArr + 1))%nat.
Proof.
  rewrite <- (length_map (linearIndex (length vArr + 1))), computeCellsFor_indices.
  apply length_seq.
Qed.

(** C1: for cut lists of lengths m (vertical) and n (horizontal),
    [computeCellsFor] returns exactly (m+1)*(n+1) cells, in row-major order:
    the cell at position k has row k / (m+1) and column k mod (m+1), so the
    linear indices row * columnCount + column are 0, 1, ..., (m+1)*(n+1) - 1
    in that order; with both cut lists empty the result is the single cell
    covering the whole canvas. *)
Theorem computeCellsFor_cells (vArr hArr : list Q) :
  let m := length vArr in
  let n := length hArr in
  length (computeCellsFor vArr hArr) = ((m + 1) * (n + 1))%nat
  /\ map (linearIndex (m + 1)) (computeCellsFor vArr hArr) = seq 0 ((m + 1) * (n + 1))
  /\ (forall k c, nth_error (computeCellsFor vArr hArr) k = Some c ->
        cell_j c = (k / (m + 1))%nat /\ cell_i c = (k mod (m + 1))%nat)
  /\ (exists c, computeCellsFor [] [] = [c]
        /\ cell_x c == 0 /\ cell_y c == 0 /\ cell_w c == W /\ cell_h c == H
        /\ cell_i c = 0%nat /\ cell_j c = 0%nat).
Proof.
  intros m n.
  pose proof (computeCellsFor_indices vArr hArr) as Hidx. fold m n in Hidx.
  split; [apply computeCellsFor_length|split; [exact Hidx|split]].
  - intros k c Hk.
    assert (Hlin : nth_error (seq 0 ((m + 1) * (n + 1))) k = Some (linearIndex (m + 1) c)).
    { rewrite <- Hidx. now apply map_nth_error. }
    assert (Hlt : (k < (m + 1) * (n + 1))%nat).
    { assert (Hsome : nth_error (seq 0 ((m + 1) * (n + 1))) k <> None)
        by (rewrite Hlin; discriminate).
      apply nth_error_Some in Hsome. now rewrite length_seq in Hsome. }
    rewrite nth_error_seq in Hlin.
    destruct (Nat.ltb_spec k ((m + 1) * (n + 1))) as [_|?]; [|lia].
    injection Hlin as Hlin. simpl in Hlin. unfold linearIndex in Hlin.
    assert (Hi : (cell_i c < m + 1)%nat).
    { apply nth_error_In in Hk. unfold computeCellsFor in Hk.
      apply in_flat_map in Hk as (j & _ & Hc). apply in_map_iff in Hc as (i & <- & Hi).
      apply in_seq in Hi. rewrite boundaries_length in Hi. simpl. subst m. lia. }
    split.
    + apply (Nat.div_unique k (m + 1) (cell_j c) (cell_i c)); lia.
    + apply (Nat.mod_unique k (m + 1) (cell_j c) (cell_i c)); lia.
  - eexists. split; [reflexivity|]. repeat split; reflexivity.
Qed.

(** ** Locating a coordinate among the boundaries *)

Lemma interval_test x xs i :
  Qgeb x (at_ xs i) && Qltb x (at_ xs (i + 1)) = true <-> inInterval x xs i.
Proof. unfold inInterval. now rewrite andb_true_iff, Qgeb_ge, Qltb_lt. Qed.

Lemma xIndexFor_loop_Some x xs n : forall i r,
  xIndexFor_loop x xs i n = Some r ->
  (i <= r < i + n)%nat /\ inInterval x xs r
  /\ forall i', (i <= i' < r)%nat -> ~ inInterval x xs i'.
Proof.
  induction n as [|n IH]; intros i r; simpl; [discriminate|].
  destruct (Qgeb x (at_ xs i) && Qltb x (at_ xs (i + 1))) eqn:E.
  - intros [= <-]. apply interval_test in E. repeat split; [lia | lia | | | lia].
    + apply E.
    + apply E.
  - intros Hr. apply IH in Hr as (Hb & Hin & Hfirst).
    repeat split; [lia | lia | apply Hin | apply Hin |].
    intros i' Hi'. destruct (Nat.eq_dec i' i) as [->|Hne].
    + rewrite <- interval_test, E. discriminate.
    + apply Hfirst. lia.
Qed.

Lemma xIndexFor_loop_None x xs n : forall i,
  xIndexFor_loop x xs i n = None ->
  forall i', (i <= i' < i + n)%nat -> ~ inInterval x xs i'.
Proof.
  induction n as [|n IH]; intros i; simpl; [intros _ i'; lia|].
  destruct (Qgeb x (at_ xs i) && Qltb x (at_ xs (i + 1))) eqn:E; [discriminate|].
  intros Hn i' Hi'. destruct (Nat.eq_dec i' i) as [->|Hne].
  - rewrite <- interval_test, E. discriminate.
  - apply (IH _ Hn). lia.
Qed.

Lemma xIndexFor_loop_complete x xs n : forall i,
  (forall i', (i <= i' < i + n)%nat -> ~ inInterval x xs i') ->
  xIndexFor_loop x xs i n = None.
Proof.
  induction n as [|n IH]; intros i Hno; simpl; [reflexivity|].
  destruct (Qgeb x (at_ xs i) && Qltb x (at_ xs (i + 1))) eqn:E.
  - apply interval_test in E. exfalso. apply (Hno i); [lia | exact E].
  - apply IH. intros i' Hi'. apply Hno. lia.
Qed.

Lemma yIndexFor_is_xIndexFor y ys : yIndexFor y ys = xIndexFor y ys.
Proof.
  unfold yIndexFor, xIndexFor.
  enough (forall n j, yIndexFor_loop y ys j n = xIndexFor_loop y ys j n) as -> by reflexivity.
  induction n as [|n IH]; intros j; simpl; [reflexivity|]. now rewrite IH.
Qed.

Lemma xIndexFor_range x xs :
  (2 <= length xs)%nat -> (0 <= xIndexFor x xs <= Z.of_nat (length xs) - 2)%Z.
Proof.
  intros Hlen. unfold xIndexFor.
  destruct (xIndexFor_loop x xs 0 (length xs - 1)) as [r|] eqn:E; [|lia].
  apply xIndexFor_loop_Some in E as [Hr _]. lia.
Qed.

Lemma xIndexFor_first x xs i :
  (i + 1 < length xs)%nat -> inInterval x xs i ->
  (forall i', (i' < i)%nat -> ~ inInterval x xs i') ->
  xIndexFor x xs = Z.of_nat i.
Proof.
  intros Hi Hin Hfirst. unfold xIndexFor.
  destruct (xIndexFor_loop x xs 0 (length xs - 1)) as [r|] eqn:E.
  - apply xIndexFor_loop_Some in E as (Hr & Hrin & Hrfirst).
    f_equal. destruct (Nat.lt_trichotomy r i) as [Hlt|[->|Hgt]]; [|reflexivity|].
    + exfalso. now apply (Hfirst r).
    + exfalso. apply (Hrfirst i); [lia | exact Hin].
  - exfalso. apply (xIndexFor_loop_None _ _ _ _ E i); [lia | exact Hin].
Qed.

Lemma xIndexFor_fallback x xs :
  (forall i, (i + 1 < length xs)%nat -> ~ inInterval x xs i) ->
  xIndexFor x xs = (Z.of_nat (length xs) - 2)%Z.
Proof.
  intros Hno. unfold xIndexFor. rewrite xIndexFor_loop_complete; [reflexivity|].
  intros i' Hi'. apply Hno. lia.
Qed.

(** C10: for every coordinate and every boundary array with at least two
    entries, [xIndexFor] and [yIndexFor] return an index between 0 and
    [length - 2]; a coordinate that lies in none of the half-open intervals
    (on the last boundary, beyond it, or before the first one) is sent to the
    last interval by the fallback [return]. *)
Theorem indexFor_total (x y : Q) (xs ys : list Q) :
  (2 <= length xs)%nat -> (2 <= length ys)%nat ->
  ((0 <= xIndexFor x xs <= Z.of_nat (length xs) - 2)%Z
   /\ ((forall i, (i + 1 < length xs)%nat -> ~ inInterval x xs i) ->
       xIndexFor x xs = (Z.of_nat (length xs) - 2)%Z))
  /\ ((0 <= yIndexFor y ys <= Z.of_nat (length ys) - 2)%Z
   /\ ((forall j, (j + 1 < length ys)%nat -> ~ inInterval y ys j) ->
       yIndexFor y ys = (Z.of_nat (length ys) - 2)%Z)).
Proof.
  intros Hxs Hys. pose proof (yIndexFor_is_xIndexFor y ys) as ->.
  split; (split; [now apply xIndexFor_range | intros Hno; now apply xIndexFor_fallback]).
Qed.

Lemma indexFor_total_witness :
  let xs : list Q := [0; 90; 820] in
  let ys : list Q := [0; 600] in
  ((0 <= xIndexFor 820 xs <= 1)%Z /\ xIndexFor 820 xs = 1%Z)
  /\ ((0 <= yIndexFor (-5) ys <= 0)%Z /\ yIndexFor (-5) ys = 0%Z).
Proof.
  intros xs ys.
  destruct (indexFor_total 820 (-5) xs ys) as [[Hx _] [Hy _]];
    [simpl; lia | simpl; lia |].
  split; (split; [assumption | reflexivity]).
Defined.

(** ** The original composition *)

(** C4: in the original configuration the anchor (0.24, 0.63) scales to
    (196.8, 378), falls in column 1 (90 <= 196.8 < 320) and row 3
    (290 <= 378 < 380), that is cell 3*5+1 = 16, and the original colour map
    sends 16 to that anchor's blue. *)
Theorem original_anchor_blue_16 :
  let s := setup initial in
  let xs := boundaries (originalV s) W in
  let ys := boundaries (originalH s) H in
  let x := constrain 0.24 0 1 * W in
  let y := constrain 0.63 0 1 * H in
  nth_error (originalColorTargets s) 0 = Some (mkTarget 0.24 0.63 (Color 25 80 180))
  /\ xs = [0; 90; 320; 360; 560; 820] /\ ys = [0; 90; 250; 290; 380; 540; 600]
  /\ x == 196.8 /\ y == 378
  /\ xIndexFor x xs = 1%Z /\ inInterval x xs 1
  /\ yIndexFor y ys = 3%Z /\ inInterval y ys 3
  /\ (yIndexFor y ys * (Z.of_nat (length xs) - 1) + xIndexFor x xs = 16)%Z
  /\ colorMapFromTargets (originalColorTargets s) (originalV s) (originalH s) !! 16%Z
     = Some (Color 25 80 180)
  /\ originalColorsMap s !! 16%Z = Some (Color 25 80 180).
Proof.
  cbv zeta. unfold inInterval.
  repeat match goal with |- _ /\ _ => split end;
    try (vm_compute; reflexivity); vm_compute; intros; discriminate.
Qed.

(** ** Interpolation *)

Lemma lerpArray_length a b t : length (lerpArray a b t) = length b.
Proof. unfold lerpArray. apply length_imap. Qed.

Lemma lerpArray_lookup a b t i bi :
  b !! i = Some bi -> lerpArray a b t !! i = Some (lerp (slot a i) (Num bi) t).
Proof. intros Hb. unfold lerpArray. now rewrite list_lookup_imap, Hb. Qed.

(** C5 as stated fails: with a start list shorter than the target list
    [lerpArray] signals nothing and returns a list whose first entry is
    interpolated and whose second entry is NaN.  The sketch itself can reach
    such a call: after a press that produced a single vertical cut, the
    frames of the transition interpolate that one cut against the four
    original ones and draw grid lines at NaN. *)
Lemma lerpArray_mismatch_returns :
  let a : list Q := [100] in
  let b : list Q := [90; 320] in
  (length a <> length b
   /\ Forall2 jsnum_eq (lerpArray a b 0.5) [Num 95; NaN])
  /\ (let s := run (fun _ => zero_sample) [Press; Release 0] in
      mode s = Transition
      /\ length (vStart s) = 1%nat /\ length (originalV s) = 4%nat
      /\ In (Line NaN (Num 0) NaN (Num H)) (snd (draw 550 s))).
Proof.
  split; [split; [discriminate | repeat constructor]|].
  vm_compute. repeat split. tauto.
Qed.

(** C5, amended: whatever the two lengths are, [lerpArray] returns a list
    with exactly the target's length; entry [i] is the interpolation of
    [a[i]] and [b[i]] where the start list has an entry, and NaN where it has
    none; entries of the start list past the target's length are ignored. *)
Theorem lerpArray_any_lengths (a b : list Q) (t : Q) :
  length (lerpArray a b t) = length b
  /\ forall i bi, b !! i = Some bi ->
       lerpArray a b t !! i
       = Some (match a !! i with
               | Some ai => Num (t * (bi - ai) + ai)
               | None => NaN
               end).
Proof.
  split; [apply lerpArray_length|].
  intros i bi Hb. rewrite (lerpArray_lookup _ _ _ _ _ Hb).
  unfold slot. now destruct (a !! i).
Qed.







Lemma lerpArray_cons x a y b t :
  lerpArray (x :: a) (y :: b) t = Num (lerpQ x y t) :: lerpArray a b t.
Proof. reflexivity. Qed.






(** ** Sorting and pairwise separation *)

Lemma compareAsc_le a b : Qle_bool (compareAsc a b) 0 = true <-> a <= b.
Proof. unfold compareAsc. rewrite Qle_bool_iff. split; intros; lra. Qed.

Lemma Forall_insertAsc (P : Q -> Prop) a l :
  Forall P (insertAsc a l) <-> P a /\ Forall P l.
Proof.
  induction l as [|b l IH]; simpl.
  - rewrite !Forall_cons_iff. tauto.
  - destruct (Qle_bool _ _).
    + rewrite !Forall_cons_iff. tauto.
    + rewrite !Forall_cons_iff, IH. tauto.
Qed.

Lemma Forall_sortAsc (P : Q -> Prop) l : Forall P (sortAsc l) <-> Forall P l.
Proof.
  induction l as [|a l IH]; simpl; [tauto|].
  now rewrite Forall_insertAsc, Forall_cons_iff, IH.
Qed.

Lemma insertAsc_sorted a l :
  StronglySorted Qle l -> StronglySorted Qle (insertAsc a l).
Proof.
  induction 1 as [|b l Hl IH Hb]; simpl.
  - repeat constructor.
  - destruct (Qle_bool (compareAsc a b) 0) eqn:E.
    + apply compareAsc_le in E. constructor; [now constructor|].
      constructor; [exact E|].
      eapply Forall_impl; [exact Hb|]. intros c Hc. simpl in Hc. lra.
    + apply not_true_iff_false in E. rewrite compareAsc_le in E.
      constructor; [exact IH|]. apply Forall_insertAsc. split; [lra | exact Hb].
Qed.

Lemma sortAsc_sorted l : StronglySorted Qle (sortAsc l).
Proof.
  induction l as [|a l IH]; simpl; [constructor | now apply insertAsc_sorted].
Qed.

Section Pairwise.

Variable R : Q -> Q -> Prop.
Hypothesis R_sym : forall p q, R p q -> R q p.

Lemma pairs_snoc l x :
  ForallOrdPairs R l -> Forall (fun p => R p x) l -> ForallOrdPairs R (l ++ [x]).
Proof.
  induction 1 as [|a l Ha Hl IH]; intros Hx; simpl.
  - repeat constructor.
  - apply Forall_cons_iff in Hx as [Hax Hx]. constructor; [|now apply IH].
    apply Forall_app. split; [exact Ha | now constructor].
Qed.

Lemma pairs_insertAsc a l :
  Forall (R a) l -> ForallOrdPairs R l -> ForallOrdPairs R (insertAsc a l).
Proof.
  intros Ha Hl. revert Ha. induction Hl as [|b l Hb Hl IH]; intros Ha; simpl.
  - repeat constructor.
  - apply Forall_cons_iff in Ha as [Hab Ha].
    destruct (Qle_bool _ _).
    + constructor; [now constructor | now constructor].
    + constructor; [|now apply IH].
      apply Forall_insertAsc. split; [now apply R_sym | exact Hb].
Qed.

Lemma pairs_sortAsc l : ForallOrdPairs R l -> ForallOrdPairs R (sortAsc l).
Proof.
  induction 1 as [|a l Ha Hl IH]; simpl; [constructor|].
  apply pairs_insertAsc; [now apply Forall_sortAsc | exact IH].
Qed.

End Pairwise.

Lemma pairs_lookup (R : Q -> Q -> Prop) (l : list Q) :
  ForallOrdPairs R l ->
  forall i j p q, (i < j)%nat -> l !! i = Some p -> l !! j = Some q -> R p q.
Proof.
  induction 1 as [|a l Ha Hl IH]; intros i j p q Hij Hi Hj; [discriminate|].
  destruct j as [|j]; [lia|]. simpl in Hj.
  destruct i as [|i]; simpl in Hi.
  - injection Hi as <-. rewrite Forall_forall in Ha. apply Ha.
    eapply list_elem_of_lookup_2. exact Hj.
  - apply (IH i j); [lia | assumption | assumption].
Qed.

Lemma sorted_pairs (l : list Q) : StronglySorted Qle l -> ForallOrdPairs Qle l.
Proof. induction 1; constructor; assumption. Qed.

(** ** The line generator *)

Lemma separated_sym minGap p q : separated minGap p q -> separated minGap q p.
Proof.
  unfold separated. intros Hpq.
  assert (Qabs (q - p) == Qabs (p - q)) as ->; [|exact Hpq].
  rewrite <- Qabs_opp. apply Qabs_wd. ring.
Qed.

Section LineGenerator.

Variable rnd : nat -> sample.

Lemma sample_range k : 0 <= sample_val (rnd k) < 1.
Proof.
  pose proof (sample_unit (rnd k)) as Hu.
  apply andb_true_iff in Hu as [H0 H1].
  apply Qgeb_ge in H0. apply Qltb_lt in H1. now split.
Qed.

Lemma random2_range k lo hi :
  lo <= hi -> lo <= random2 rnd k lo hi /\ random2 rnd k lo hi <= hi.
Proof.
  intros Hle. unfold random2.
  destruct (Qltb hi lo) eqn:E; [apply Qltb_lt in E; lra|].
  pose proof (sample_range k) as [H0 H1]. split; nra.
Qed.

Lemma random1_range k max :
  0 <= max -> 0 <= random1 rnd k max /\ (0 < max -> random1 rnd k max < max).
Proof.
  intros Hmax. unfold random1. pose proof (sample_range k) as [H0 H1].
  split; [nra | intros; nra].
Qed.

Variables (count : nat) (span margin minGap : Q).

Let loop (left : nat) := makeRandomLines_loop rnd left count span margin minGap.

(** What the loop keeps true of [picks], and how much of the random
    stream it consumes. *)
Lemma makeRandomLines_loop_inv (P : Q -> Prop) (left : nat) :
  (forall k, P (random2 rnd k (margin + LINE_W) (span - margin - LINE_W))) ->
  forall picks k,
  (length picks <= count)%nat ->
  Forall P picks ->
  ForallOrdPairs (separated minGap) picks ->
  let '(picks', k') := loop left picks k in
  (length picks' <= count)%nat
  /\ Forall P picks'
  /\ ForallOrdPairs (separated minGap) picks'
  /\ (k <= k' <= k + left)%nat
  /\ ((length picks' < count)%nat -> k' = (k + left)%nat).
Proof.
  intros HP. subst loop.
  induction left as [|left IH]; intros picks k Hlen HPp Hsep;
    cbn [makeRandomLines_loop].
  - repeat split; try assumption; lia.
  - destruct (Nat.ltb_spec (length picks) count) as [Hlt|Hge].
    + set (x := random2 rnd k (margin + LINE_W) (span - margin - LINE_W)).
      destruct (forallb (fun p => Qgeb (Qabs (p - x)) minGap) picks) eqn:Eall.
      * specialize (IH (picks ++ [x]) (S k)).
        destruct (makeRandomLines_loop rnd left count span margin minGap (picks ++ [x]) (S k))
          as [picks' k'].
        cbv beta iota in *.
        destruct IH as (H1 & H2 & H3 & H4 & H5).
        -- rewrite length_app. simpl. lia.
        -- apply Forall_app. split; [exact HPp | constructor; [apply HP | constructor]].
        -- apply pairs_snoc; [exact Hsep|].
           apply Forall_forall. intros p Hp.
           rewrite forallb_forall in Eall.
           apply list_elem_of_In in Hp. apply Eall in Hp. now apply Qgeb_ge in Hp.
        -- split; [exact H1|]. split; [exact H2|]. split; [exact H3|].
           split; [lia|]. intros Hshort. rewrite (H5 Hshort). lia.
      * specialize (IH picks (S k) Hlen HPp Hsep).
        destruct (makeRandomLines_loop rnd left count span margin minGap picks (S k))
          as [picks' k'].
        cbv beta iota in *.
        destruct IH as (H1 & H2 & H3 & H4 & H5).
        split; [exact H1|]. split; [exact H2|]. split; [exact H3|].
        split; [lia|]. intros Hshort. rewrite (H5 Hshort). lia.
    + repeat split; try assumption; lia.
Qed.

Lemma makeRandomLines_inv (P : Q -> Prop) (k : nat) :
  (forall k, P (random2 rnd k (margin + LINE_W) (span - margin - LINE_W))) ->
  let '(lines, k') := makeRandomLines rnd count span margin minGap k in
  (length lines <= count)%nat
  /\ Forall P lines
  /\ ForallOrdPairs (separated minGap) lines
  /\ StronglySorted Qle lines
  /\ (k <= k' <= k + triesLimit)%nat
  /\ ((length lines < count)%nat -> k' = (k + triesLimit)%nat).
Proof.
  intros HP. unfold makeRandomLines.
  pose proof (makeRandomLines_loop_inv P triesLimit HP [] k) as Hinv.
  subst loop. cbv beta in Hinv.
  specialize (Hinv (Nat.le_0_l count) (Forall_nil_2 P)
                   (FOP_nil (separated minGap))).
  destruct (makeRandomLines_loop rnd triesLimit count span margin minGap [] k)
    as [picks k'].
  cbv beta iota in *.
  destruct Hinv as (H1 & H2 & H3 & H4 & H5).
  rewrite sortAsc_length. repeat split; try assumption; try lia.
  - now apply Forall_sortAsc.
  - apply pairs_sortAsc; [apply separated_sym | exact H3].
  - apply sortAsc_sorted.
Qed.

End LineGenerator.



(** C7: [makeRandomLines] always returns, after at most 5000 attempts (one
    random sample each), with at most [count] positions; it returns fewer
    than [count] positions only when all 5000 attempts were used. *)
Theorem makeRandomLines_budget
    (rnd : nat -> sample) (count : nat) (span margin minGap : Q) (k : nat) :
  let lines := fst (makeRandomLines rnd count span margin minGap k) in
  let attempts := (snd (makeRandomLines rnd count span margin minGap k) - k)%nat in
  (attempts <= 5000)%nat
  /\ (length lines <= count)%nat
  /\ (length lines = count \/ ((length lines < count)%nat /\ attempts = 5000%nat)).
Proof.
  pose proof (makeRandomLines_inv rnd count span margin minGap (fun _ => True) k
                (fun _ => I)) as Hinv.
  destruct (makeRandomLines rnd count span margin minGap k) as [lines k'].
  destruct Hinv as (Hlen & _ & _ & _ & Hk & Hshort). simpl.
  change triesLimit with 5000%nat in *.
  split; [lia|]. split; [exact Hlen|].
  destruct (Nat.eq_dec (length lines) count) as [Heq|Hne]; [now left|right].
  assert (Hlt : (length lines < count)%nat) by lia.
  specialize (Hshort Hlt). split; [exact Hlt | lia].
Qed.

(** The budget can really run out: when every sample is 0 each candidate
    after the first is rejected, and 4 requested lines come back as one. *)
Example makeRandomLines_exhausted :
  makeRandomLines (fun _ => zero_sample) 4 W MARGIN 60 0 = ([18], 5000%nat).
Proof. vm_compute. reflexivity. Qed.

(** ** What a frame paints *)

Lemma colored_app f1 f2 : colored (f1 ++ f2) = colored f1 || colored f2.
Proof. apply existsb_app. Qed.

Lemma lines_not_colored (A : Type) (mk : A -> cmd) (l : list A) :
  (forall a, isColor (mk a) = false) -> colored (map mk l) = false.
Proof.
  intros Hmk. induction l as [|a l IH]; simpl; [reflexivity|].
  now rewrite Hmk, IH.
Qed.

Lemma drawGrid_not_colored vArr hArr : colored (drawGrid vArr hArr) = false.
Proof.
  unfold drawGrid. rewrite !colored_app.
  rewrite !lines_not_colored by reflexivity. reflexivity.
Qed.

Lemma colored_In frame c : In c frame -> isColor c = true -> colored frame = true.
Proof. intros Hin Hc. apply existsb_exists. now exists c. Qed.

Lemma drawColorsFromMap_fill (m : gmap Z color) vArr hArr idx c :
  m !! idx = Some c ->
  (0 <= idx < (Z.of_nat (length vArr) + 1) * (Z.of_nat (length hArr) + 1))%Z ->
  In (Fill c) (drawColorsFromMap m vArr hArr).
Proof.
  intros Hm Hidx. unfold drawColorsFromMap. right.
  rewrite !boundaries_length.
  set (cols := (Z.of_nat (length vArr) + 1)%Z) in *.
  assert (Hcols : (Z.of_nat (length vArr + 2) - 1 = cols)%Z) by (subst cols; lia).
  rewrite Hcols.
  assert (Hpos : (0 < cols)%Z) by (subst cols; lia).
  apply in_flat_map. exists (Z.to_nat (idx / cols)). split.
  - apply in_seq. split; [lia|].
    assert ((idx / cols < Z.of_nat (length hArr) + 1)%Z)
      by (apply Z.div_lt_upper_bound; lia).
    assert ((0 <= idx / cols)%Z) by (apply Z.div_pos; lia). lia.
  - apply in_flat_map. exists (Z.to_nat (idx mod cols)). split.
    + apply in_seq. pose proof (Z.mod_pos_bound idx cols Hpos). subst cols. lia.
    + assert (Hsplit : (Z.of_nat (Z.to_nat (idx / cols)) * cols
                        + Z.of_nat (Z.to_nat (idx mod cols)) = idx)%Z).
      { pose proof (Z.mod_pos_bound idx cols Hpos).
        assert ((0 <= idx / cols)%Z) by (apply Z.div_pos; lia).
        rewrite !Z2Nat.id by lia. rewrite Z.mul_comm. symmetry. apply Z.div_mod. lia. }
      rewrite Hsplit, Hm. left. reflexivity.
Qed.

Lemma drawColorsFromMap_only_mapped (m : gmap Z color) vArr hArr c :
  In (Fill c) (drawColorsFromMap m vArr hArr) -> exists idx, m !! idx = Some c.
Proof.
  unfold drawColorsFromMap. intros [Hin|Hin]; [discriminate|].
  apply in_flat_map in Hin as (j & _ & Hin).
  apply in_flat_map in Hin as (i & _ & Hin).
  match type of Hin with context [m !! ?k] => destruct (m !! k) as [c'|] eqn:E end.
  - destruct Hin as [[= ->]|[Hin|[]]]; [|discriminate]. eauto.
  - destruct Hin.
Qed.

(** ** The shuffle *)

Section Shuffle.

Variable rnd : nat -> sample.

(** The index [j = floor(random(i + 1))] never exceeds [i]. *)
Lemma shuffle_index_le (i k : nat) :
  (Z.to_nat (Qfloor (random1 rnd k (inject_Z (Z.of_nat i + 1)))) <= i)%nat.
Proof.
  set (top := inject_Z (Z.of_nat i + 1)).
  assert (Htop : 0 < top).
  { subst top. change 0 with (inject_Z 0). rewrite <- Zlt_Qlt. lia. }
  destruct (random1_range rnd k top) as [_ Hlt]; [lra|]. specialize (Hlt Htop).
  pose proof (Qfloor_le (random1 rnd k top)) as Hfloor.
  assert (Hz : inject_Z (Qfloor (random1 rnd k top)) < top) by lra.
  subst top. rewrite <- Zlt_Qlt in Hz. lia.
Qed.

(** Inside the array the swap is the three assignments of the source. *)
Lemma swap_in_range arr i j :
  (j <= i < length arr)%nat ->
  exists t aj, arr !! i = Some t /\ arr !! j = Some aj
               /\ swap arr i j = <[j := t]> (<[i := aj]> arr).
Proof.
  intros Hij.
  destruct (lookup_lt_is_Some_2 arr i) as [t Ht]; [lia|].
  destruct (lookup_lt_is_Some_2 arr j) as [aj Haj]; [lia|].
  exists t, aj. unfold swap. now rewrite Ht, Haj.
Qed.

Lemma swap_length arr i j : length (swap arr i j) = length arr.
Proof.
  unfold swap. destruct (arr !! i), (arr !! j); try reflexivity.
  now rewrite !length_insert.
Qed.

Lemma swap_Forall (P : Z -> Prop) arr i j : Forall P arr -> Forall P (swap arr i j).
Proof.
  intros Harr. unfold swap.
  destruct (arr !! i) as [t|] eqn:Ei; [|exact Harr].
  destruct (arr !! j) as [aj|] eqn:Ej; [|exact Harr].
  rewrite Forall_forall in Harr.
  repeat apply Forall_insert; try (apply Forall_forall; exact Harr);
    apply Harr; eapply list_elem_of_lookup_2; eassumption.
Qed.

Lemma shuffle_loop_inv (P : Z -> Prop) n : forall arr k,
  Forall P arr ->
  length (fst (shuffle_loop rnd n arr k)) = length arr
  /\ Forall P (fst (shuffle_loop rnd n arr k)).
Proof.
  induction n as [|n IH]; intros arr k Harr; cbn [shuffle_loop]; [now split|].
  destruct (IH (swap arr (S n) (Z.to_nat (Qfloor (random1 rnd k
              (inject_Z (Z.of_nat (S n) + 1)))))) (S k)) as [Hlen Hall].
  - now apply swap_Forall.
  - split; [now rewrite Hlen, swap_length | exact Hall].
Qed.

Lemma shuffleInPlace_inv (P : Z -> Prop) arr k :
  Forall P arr ->
  length (fst (shuffleInPlace rnd arr k)) = length arr
  /\ Forall P (fst (shuffleInPlace rnd arr k)).
Proof. apply shuffle_loop_inv. Qed.

End Shuffle.

(** ** The random colour map *)

Lemma assign_step_keeps (palette : list color) (indices : list Z) (l : list nat)
    (m : gmap Z color) (key : Z) :
  is_Some (m !! key) ->
  is_Some (fold_left (fun (m : gmap Z color) i =>
             match indices !! i, palette !! (i mod length palette)%nat with
             | Some key, Some c => <[key := c]> m
             | _, _ => m
             end) l m !! key).
Proof.
  revert m. induction l as [|i l IH]; intros m Hm; simpl; [exact Hm|].
  apply IH. destruct (indices !! i) as [key'|]; [|exact Hm].
  destruct (palette !! (i mod length palette)%nat) as [c|]; [|exact Hm].
  destruct (decide (key' = key)) as [->|Hne].
  - rewrite lookup_insert_eq. eauto.
  - now rewrite lookup_insert_ne.
Qed.

Lemma assign_step_keys (palette : list color) (indices : list Z) (l : list nat)
    (m : gmap Z color) (key : Z) :
  is_Some (fold_left (fun (m : gmap Z color) i =>
             match indices !! i, palette !! (i mod length palette)%nat with
             | Some key, Some c => <[key := c]> m
             | _, _ => m
             end) l m !! key) ->
  is_Some (m !! key) \/ key ∈ indices.
Proof.
  revert m. induction l as [|i l IH]; intros m Hm; simpl in Hm; [now left|].
  apply IH in Hm as [Hm|Hm]; [|now right].
  destruct (indices !! i) as [key'|] eqn:Ei; [|now left].
  destruct (palette !! (i mod length palette)%nat) as [c|]; [|now left].
  destruct (decide (key' = key)) as [->|Hne].
  - right. eapply list_elem_of_lookup_2. exact Ei.
  - left. now rewrite lookup_insert_ne in Hm.
Qed.

Lemma assignPalette_first (palette : list color) (indices : list Z) c key :
  palette !! 0%nat = Some c -> indices !! 0%nat = Some key ->
  is_Some (assignPalette palette indices !! key).
Proof.
  intros Hp Hi. unfold assignPalette.
  pose proof (lookup_lt_Some _ _ _ Hp) as Hlp.
  pose proof (lookup_lt_Some _ _ _ Hi) as Hli.
  destruct (Nat.min (length palette) (length indices)) as [|n] eqn:En; [lia|].
  cbn [seq fold_left].
  apply assign_step_keeps.
  rewrite Hi, Nat.Div0.mod_0_l, Hp, lookup_insert_eq. eauto.
Qed.

Lemma assignPalette_keys (palette : list color) (indices : list Z) key :
  is_Some (assignPalette palette indices !! key) -> key ∈ indices.
Proof.
  intros Hk. apply assign_step_keys in Hk as [Hk|Hk]; [|exact Hk].
  rewrite lookup_empty in Hk. now destruct Hk.
Qed.

(** ** Reachable states *)

Ltac fields :=
  cbn [vLines hLines cells originalV originalH originalColorsMap
       originalColorTargets randomColorsMap mode tStart vStart hStart rngPos] in *.

Lemma inv_setup : inv (setup initial).
Proof.
  split; try reflexivity; try (vm_compute; lia).
  - intros _. split; reflexivity.
  - discriminate.
Qed.

Section Reachable.

Variable rnd : nat -> sample.

Lemma inv_mousePressed s : inv s -> inv (mousePressed rnd s).
Proof.
  intros [HV HH Ht Hm HvC HhC Hc Ho Hr]. unfold mousePressed.
  pose proof (makeRandomLines_inv rnd (length (originalV s)) W MARGIN 60
                (fun _ => True) (rngPos s) (fun _ => I)) as Hv.
  destruct (makeRandomLines rnd (length (originalV s)) W MARGIN 60 (rngPos s))
    as [vLines' k1].
  pose proof (makeRandomLines_inv rnd (length (originalH s)) H MARGIN 60
                (fun _ => True) k1 (fun _ => I)) as Hh.
  destruct (makeRandomLines rnd (length (originalH s)) H MARGIN 60 k1)
    as [hLines' k2].
  destruct Hv as [Hv _]. destruct Hh as [Hh _].
  rewrite HV in Hv. rewrite HH in Hh. cbn [length] in Hv, Hh.
  set (n := length (computeCellsFor vLines' hLines')).
  pose proof (shuffleInPlace_inv rnd (fun z => (0 <= z < Z.of_nat n)%Z)
                (map Z.of_nat (seq 0 n)) k2) as Hsh.
  destruct (shuffleInPlace rnd (map Z.of_nat (seq 0 n)) k2) as [indices k3].
  cbn [fst] in Hsh. destruct Hsh as [Hlen Hall].
  { apply Forall_forall. intros z Hz. apply list_elem_of_In in Hz.
    apply in_map_iff in Hz as (i & <- & Hi). apply in_seq in Hi. lia. }
  rewrite length_map, length_seq in Hlen.
  assert (Hn : n = ((length vLines' + 1) * (length hLines' + 1))%nat)
    by apply computeCellsFor_length.
  split; fields; try assumption; try discriminate.
  - reflexivity.
  - intros _. unfold cellCount. fields. split.
    + destruct indices as [|key indices]; [simpl in Hlen; lia|].
      exists key. apply (assignPalette_first _ _ (Color 25 80 180)); [|reflexivity].
      rewrite Ht. reflexivity.
    + intros key Hkey. apply assignPalette_keys in Hkey.
      rewrite Forall_forall in Hall. specialize (Hall key Hkey). lia.
Qed.

Lemma inv_mouseReleased now s : inv s -> inv (mouseReleased now s).
Proof.
  intros [HV HH Ht Hm HvC HhC Hc Ho Hr].
  split; fields; try assumption; discriminate.
Qed.

Lemma draw_commit now s :
  mode s = Transition ->
  1 <= constrain ((now - tStart s) / TRANSITION_MS) 0 1 ->
  let s' := fst (draw now s) in
  vLines s' = originalV s /\ hLines s' = originalH s
  /\ cells s' = computeCellsFor (originalV s) (originalH s)
  /\ mode s' = Original
  /\ originalV s' = originalV s /\ originalH s' = originalH s.
Proof.
  intros Hmode Hu. unfold draw. rewrite Hmode.
  apply Qgeb_ge in Hu. rewrite Hu. cbn [fst]. fields. repeat split.
Qed.

Lemma draw_pending now s :
  mode s = Transition ->
  constrain ((now - tStart s) / TRANSITION_MS) 0 1 < 1 ->
  fst (draw now s) = s.
Proof.
  intros Hmode Hu. unfold draw. rewrite Hmode.
  destruct (Qgeb _ 1) eqn:E; [apply Qgeb_ge in E; lra | reflexivity].
Qed.

Lemma draw_resting now s : mode s <> Transition -> fst (draw now s) = s.
Proof. intros Hmode. unfold draw. destruct (mode s); [reflexivity..|contradiction]. Qed.

Lemma inv_draw now s : inv s -> inv (fst (draw now s)).
Proof.
  intros Hinv. destruct (mode s) eqn:Hmode;
    [rewrite draw_resting by congruence; exact Hinv .. |].
  destruct (Qlt_le_dec (constrain ((now - tStart s) / TRANSITION_MS) 0 1) 1) as [Hu|Hu].
  - now rewrite draw_pending.
  - destruct (draw_commit now s Hmode Hu) as (Hv & Hh & Hc & Hm & HV & HH).
    destruct Hinv as [IV IH It Im IvC IhC Ic Io Ir].
    assert (HT : originalColorTargets (fst (draw now s)) = originalColorTargets s
                 /\ originalColorsMap (fst (draw now s)) = originalColorsMap s).
    { unfold draw. rewrite Hmode. now destruct (Qgeb _ 1). }
    destruct HT as [HT HM].
    split; rewrite ?Hv, ?Hh, ?Hc, ?Hm, ?HV, ?HH, ?HT, ?HM; try assumption;
      try discriminate; try (rewrite ?IV, ?IH; simpl; lia).
    + reflexivity.
    + intros _. now split.
Qed.

Lemma inv_step s e : inv s -> inv (step rnd s e).
Proof.
  destruct e; simpl;
    [apply inv_mousePressed | apply inv_mouseReleased | apply inv_draw].
Qed.

Lemma inv_run_from events : forall s, inv s -> inv (fold_left (step rnd) events s).
Proof.
  induction events as [|e events IH]; intros s Hs; simpl; [exact Hs|].
  apply IH. now apply inv_step.
Qed.

Lemma inv_run events : inv (run rnd events).
Proof. apply inv_run_from, inv_setup. Qed.

End Reachable.

(** ** The controller *)

Lemma original_map_blue : originalColorsMap (setup initial) !! 16%Z = Some (Color 25 80 180).
Proof. vm_compute. reflexivity. Qed.

Lemma original_map_built :
  originalColorsMap (setup initial)
  = colorMapFromTargets (originalColorTargets (setup initial))
      (originalV (setup initial)) (originalH (setup initial)).
Proof. reflexivity. Qed.

Lemma draw_frame_transition now s :
  mode s = Transition ->
  let t := easeInOutCubic (constrain ((now - tStart s) / TRANSITION_MS) 0 1) in
  snd (draw now s)
  = Background 255 :: drawGrid (lerpArray (vStart s) (originalV s) t)
                               (lerpArray (hStart s) (originalH s) t).
Proof.
  intros Hmode. unfold draw. rewrite Hmode. now destruct (Qgeb _ 1).
Qed.

(** C2: in every reachable state the frame fills coloured rectangles
    exactly when the mode is "original" or "randomized".  In "original" the
    colours come from [originalColorsMap], which was built for the original
    cuts, and the authoritative cuts are those; in "randomized" they come from
    [randomColorsMap], whose keys are cells of the authoritative grid; in
    "transition" the frame is the background and the grid over the
    interpolated cuts, without any fill. *)
Theorem color_only_when_resting (rnd : nat -> sample) (events : list event) (now : Q) :
  let s := run rnd events in
  let frame := snd (draw now s) in
  (colored frame = true <-> mode s = Original \/ mode s = Randomized)
  /\ (mode s = Original ->
        frame = Background 255
                :: drawColorsFromMap (originalColorsMap s) (vLines s) (hLines s)
                ++ drawGrid (map Num (vLines s)) (map Num (hLines s))
        /\ vLines s = originalV s /\ hLines s = originalH s
        /\ originalColorsMap s
           = colorMapFromTargets (originalColorTargets s) (originalV s) (originalH s))
  /\ (mode s = Randomized ->
        frame = Background 255
                :: drawColorsFromMap (randomColorsMap s) (vLines s) (hLines s)
                ++ drawGrid (map Num (vLines s)) (map Num (hLines s))
        /\ forall key, is_Some (randomColorsMap s !! key) -> (0 <= key < cellCount s)%Z)
  /\ (mode s = Transition ->
        let t := easeInOutCubic (constrain ((now - tStart s) / TRANSITION_MS) 0 1) in
        frame = Background 255
                :: drawGrid (lerpArray (vStart s) (originalV s) t)
                            (lerpArray (hStart s) (originalH s) t)
        /\ forall c, In c frame -> isColor c = false).
Proof.
  intros s frame. subst frame.
  destruct (inv_run rnd events) as [HV HH Ht Hm HvC HhC Hc Ho Hr]. fold s in HV, HH, Ht, Hm, HvC, HhC, Hc, Ho, Hr.
  destruct (mode s) eqn:Hmode; [unfold draw; rewrite Hmode ..|].
  - (* original *)
    destruct (Ho eq_refl) as [Hv Hh].
    assert (Hcol : colored (Background 255
              :: drawColorsFromMap (originalColorsMap s) (vLines s) (hLines s)
              ++ drawGrid (map Num (vLines s)) (map Num (hLines s))) = true).
    { apply (colored_In _ (Fill (Color 25 80 180))); [|reflexivity].
      right. apply in_or_app. left. apply drawColorsFromMap_fill with (idx := 16%Z).
      - rewrite Hm. apply original_map_blue.
      - rewrite Hv, Hh, HV, HH. simpl. lia. }
    cbn [snd]. split; [split; [now left | intros _; exact Hcol]|].
    split; [|split; discriminate].
    intros _. repeat split; try assumption.
    rewrite Hm, Ht, HV, HH. reflexivity.
  - (* randomized *)
    destruct (Hr eq_refl) as [[key [c Hkey]] Hkeys].
    assert (Hcol : colored (Background 255
              :: drawColorsFromMap (randomColorsMap s) (vLines s) (hLines s)
              ++ drawGrid (map Num (vLines s)) (map Num (hLines s))) = true).
    { apply (colored_In _ (Fill c)); [|reflexivity].
      right. apply in_or_app. left. apply drawColorsFromMap_fill with (idx := key).
      - exact Hkey.
      - apply Hkeys. eauto. }
    cbn [snd]. split; [split; [now right | intros _; exact Hcol]|].
    split; [discriminate|]. split; [|discriminate].
    intros _. split; [reflexivity | exact Hkeys].
  - (* transition *)
    rewrite (draw_frame_transition now s Hmode).
    set (t := easeInOutCubic (constrain ((now - tStart s) / TRANSITION_MS) 0 1)).
    assert (Hplain : colored (Background 255 :: drawGrid
                        (lerpArray (vStart s) (originalV s) t)
                        (lerpArray (hStart s) (originalH s) t)) = false)
      by apply drawGrid_not_colored.
    split; [split; [rewrite Hplain; discriminate | intros [|]; discriminate]|].
    split; [discriminate|]. split; [discriminate|].
    intros _. split; [reflexivity|].
    intros c Hin. destruct (isColor c) eqn:Ec; [|reflexivity].
    rewrite (colored_In _ c Hin Ec) in Hplain. discriminate.
Qed.

(** C3: a frame in "transition" that observes progress u >= 1 sets the
    authoritative cuts to the original cuts themselves (the lists
    [90,320,360,560] and [90,250,290,380,540], not the interpolated values),
    recomputes the cells from them and switches to "original"; however the
    run continues, the cuts of every later "original" state are again
    exactly these lists. *)
Theorem transition_commit_exact
    (rnd : nat -> sample) (events : list event) (now : Q) :
  let s := run rnd events in
  mode s = Transition ->
  1 <= constrain ((now - tStart s) / TRANSITION_MS) 0 1 ->
  let s' := fst (draw now s) in
  (vLines s' = originalV s /\ hLines s' = originalH s)
  /\ (vLines s' = [90; 320; 360; 560] /\ hLines s' = [90; 250; 290; 380; 540])
  /\ cells s' = computeCellsFor (vLines s') (hLines s')
  /\ mode s' = Original
  /\ forall more,
       let s'' := run rnd (events ++ Frame now :: more) in
       mode s'' = Original ->
       vLines s'' = [90; 320; 360; 560] /\ hLines s'' = [90; 250; 290; 380; 540].
Proof.
  intros s Hmode Hu s'.
  destruct (draw_commit now s Hmode Hu) as (Hv & Hh & Hc & Hm & _).
  fold s' in Hv, Hh, Hc, Hm.
  destruct (inv_run rnd events) as [HV HH _ _ _ _ _ _ _]. fold s in HV, HH.
  split; [now split|]. split; [now rewrite Hv, Hh|].
  split; [now rewrite Hc, Hv, Hh|]. split; [exact Hm|].
  intros more s'' Hmode''.
  destruct (inv_run rnd (events ++ Frame now :: more)) as [HV' HH' _ _ _ _ _ Ho _].
  fold s'' in HV', HH', Ho. destruct (Ho Hmode'') as [-> ->]. now split.
Qed.

Lemma transition_commit_exact_witness :
  let s := run eighths [Press; Release 250; Frame 800] in
  let s' := fst (draw 1350 s) in
  (mode s = Transition /\ Forall2 Qeq (vLines s) [18; 116; 214; 312])
  /\ (vLines s' = [90; 320; 360; 560] /\ hLines s' = [90; 250; 290; 380; 540])
  /\ mode s' = Original.
Proof.
  intros s s'.
  assert (Hmode : mode s = Transition) by (vm_compute; reflexivity).
  assert (Hu : 1 <= constrain ((1350 - tStart s) / TRANSITION_MS) 0 1)
    by (vm_compute; discriminate).
  destruct (transition_commit_exact eighths [Press; Release 250; Frame 800] 1350 Hmode Hu)
    as (_ & Hcuts & _ & Horig & _).
  split; [split; [exact Hmode | vm_compute; repeat constructor]|].
  split; assumption.
Defined.

(** C8 as stated fails: when every random sample is 0 the first press
    leaves a single vertical cut where setup had established four. *)
Lemma press_can_shorten_cuts :
  let rnd := fun _ : nat => zero_sample in
  length (vLines (run rnd [])) = 4%nat
  /\ length (vLines (run rnd [Press])) = 1%nat
  /\ length (hLines (run rnd [])) = 5%nat
  /\ length (hLines (run rnd [Press])) = 1%nat.
Proof. vm_compute. repeat split. Qed.

(** C8, amended: across every sequence of events each authoritative cut
    list has at most as many entries as setup established (4 vertical, 5
    horizontal); it has exactly that many in every "original" state, and a
    press leaves fewer only when the line generator used up its 5000
    attempts for that list. *)
Theorem cut_counts_bounded (rnd : nat -> sample) (events : list event) :
  let s := run rnd events in
  (length (originalV s) = 4%nat /\ length (originalH s) = 5%nat)
  /\ ((length (vLines s) <= 4)%nat /\ (length (hLines s) <= 5)%nat)
  /\ (mode s = Original -> length (vLines s) = 4%nat /\ length (hLines s) = 5%nat)
  /\ (let v := makeRandomLines rnd 4 W MARGIN 60 (rngPos s) in
      let h := makeRandomLines rnd 5 H MARGIN 60 (snd v) in
      let s' := mousePressed rnd s in
      (vLines s' = fst v /\ hLines s' = fst h)
      /\ (length (vLines s') = 4%nat \/ (snd v - rngPos s)%nat = 5000%nat)
      /\ (length (hLines s') = 5%nat \/ (snd h - snd v)%nat = 5000%nat)).
Proof.
  intros s.
  destruct (inv_run rnd events) as [HV HH _ _ HvC HhC _ Ho _].
  fold s in HV, HH, HvC, HhC, Ho.
  split; [now rewrite HV, HH|]. split; [now split|].
  split; [intros Hm; destruct (Ho Hm) as [-> ->]; now rewrite HV, HH|].
  intros v h s'.
  assert (Hs' : vLines s' = fst v /\ hLines s' = fst h).
  { subst s' v h. unfold mousePressed. rewrite HV, HH. cbn [length].
    destruct (makeRandomLines rnd 4 W MARGIN 60 (rngPos s)) as [v k1]. cbn [fst snd].
    destruct (makeRandomLines rnd 5 H MARGIN 60 k1) as [h k2].
    destruct (shuffleInPlace rnd _ k2). now split. }
  split; [exact Hs'|]. destruct Hs' as [-> ->].
  pose proof (makeRandomLines_inv rnd 4 W MARGIN 60 (fun _ => True) (rngPos s)
                (fun _ => I)) as Hv.
  pose proof (makeRandomLines_inv rnd 5 H MARGIN 60 (fun _ => True) (snd v)
                (fun _ => I)) as Hh.
  fold v in Hv. fold h in Hh. destruct v as [v k1], h as [h k2]. cbn [fst snd] in *.
  destruct Hv as (Hv1 & _ & _ & _ & Hv2 & Hv3).
  destruct Hh as (Hh1 & _ & _ & _ & Hh2 & Hh3).
  change triesLimit with 5000%nat in *.
  split.
  - destruct (Nat.eq_dec (length v) 4%nat) as [|Hne]; [now left|right].
    rewrite Hv3 by lia. lia.
  - destruct (Nat.eq_dec (length h) 5%nat) as [|Hne]; [now left|right].
    rewrite Hh3 by lia. lia.
Qed.

(** * Further properties of the sketch *)

(** ** The shuffle is a permutation *)

Lemma swap_Permutation arr i j : swap arr i j ≡ₚ arr.
Proof.
  unfold swap. destruct (arr !! i) as [t|] eqn:Ei; [|reflexivity].
  destruct (arr !! j) as [aj|] eqn:Ej; [|reflexivity].
  now apply Permutation_insert_swap.
Qed.

Lemma shuffle_loop_Permutation (rnd : nat -> sample) n : forall arr k,
  fst (shuffle_loop rnd n arr k) ≡ₚ arr
  /\ snd (shuffle_loop rnd n arr k) = (k + n)%nat.
Proof.
  induction n as [|n IH]; intros arr k; cbn [shuffle_loop].
  - split; [reflexivity | simpl; lia].
  - destruct (IH (swap arr (S n) (Z.to_nat (Qfloor (random1 rnd k
                (inject_Z (Z.of_nat (S n) + 1)))))) (S k)) as [Hperm Hk].
    split; [now rewrite Hperm, swap_Permutation | rewrite Hk; lia].
Qed.

(** X1: [shuffleInPlace] returns a rearrangement of its argument (same
    entries with the same multiplicities, so the same length), whatever the
    random samples are, and uses exactly [length - 1] samples (none for an
    empty array). *)
Theorem shuffleInPlace_permutation (rnd : nat -> sample) (arr : list Z) (k : nat) :
  fst (shuffleInPlace rnd arr k) ≡ₚ arr
  /\ length (fst (shuffleInPlace rnd arr k)) = length arr
  /\ snd (shuffleInPlace rnd arr k) = (k + (length arr - 1))%nat.
Proof.
  destruct (shuffle_loop_Permutation rnd (length arr - 1) arr k) as [Hperm Hk].
  split; [exact Hperm|]. split; [now rewrite Hperm | exact Hk].
Qed.

(** ** Edge cases of the line generator *)

Lemma makeRandomLines_loop_nonempty (rnd : nat -> sample) left count span margin minGap :
  forall picks k,
  picks <> [] ->
  fst (makeRandomLines_loop rnd left count span margin minGap picks k) <> [].
Proof.
  induction left as [|left IH]; intros picks k Hne; cbn [makeRandomLines_loop];
    [exact Hne|].
  destruct (length picks <? count)%nat; [|exact Hne].
  apply IH. destruct (forallb _ picks); [|exact Hne].
  intros Happ. apply app_eq_nil in Happ as [_ Hx]. discriminate.
Qed.

Lemma sortAsc_nil_iff l : sortAsc l = [] <-> l = [].
Proof.
  split; [|now intros ->]. intros Hs.
  apply (f_equal length) in Hs. rewrite sortAsc_length in Hs.
  now destruct l.
Qed.

Lemma makeRandomLines_loop_first
    (rnd : nat -> sample) left count span margin minGap k :
  (fst (makeRandomLines_loop rnd (S left) count span margin minGap [] k) = []
   <-> count = 0%nat)
  /\ (count = 0%nat ->
      snd (makeRandomLines_loop rnd (S left) count span margin minGap [] k) = k).
Proof.
  cbn [makeRandomLines_loop length]. destruct count as [|count].
  - change (0 <? 0)%nat with false. cbv iota. cbn [fst snd].
    split; [split; reflexivity | reflexivity].
  - change (0 <? S count)%nat with true. cbv iota. cbn [forallb app].
    split; [|discriminate]. split; [|discriminate].
    intros Hnil. exfalso. revert Hnil.
    apply makeRandomLines_loop_nonempty. discriminate.
Qed.

(** X2: [makeRandomLines] returns the empty list exactly when [count] is 0,
    and then it draws no random sample; for a positive [count] the first
    candidate is always accepted, so at least one position comes back. *)
Theorem makeRandomLines_empty_iff
    (rnd : nat -> sample) (count : nat) (span margin minGap : Q) (k : nat) :
  (fst (makeRandomLines rnd count span margin minGap k) = [] <-> count = 0%nat)
  /\ (count = 0%nat -> snd (makeRandomLines rnd count span margin minGap k) = k).
Proof.
  pose proof (makeRandomLines_loop_first rnd 4999 count span margin minGap k) as Hfirst.
  change (S 4999) with triesLimit in Hfirst.
  unfold makeRandomLines.
  destruct (makeRandomLines_loop rnd triesLimit count span margin minGap [] k)
    as [picks k'].
  cbn [fst snd] in *. destruct Hfirst as [Hnil Hk].
  split; [|exact Hk]. now rewrite sortAsc_nil_iff.
Qed.

(** ** Interpolated positions stay between their endpoints *)






(** X4: interpolating a list towards itself gives back that list for every
    interpolation factor, so a release that is not preceded by a press
    animates nothing. *)
Theorem lerpArray_same (a : list Q) (t : Q) :
  Forall2 jsnum_eq (lerpArray a a t) (map Num a).
Proof.
  induction a as [|x a IH]; [constructor|].
  rewrite lerpArray_cons. simpl. constructor; [|exact IH].
  cbn [jsnum_eq]. unfold lerpQ. ring.
Qed.

(** ** When a transition commits *)

Lemma progress_complete (now start : Q) :
  1 <= constrain ((now - start) / TRANSITION_MS) 0 1 <-> TRANSITION_MS <= now - start.
Proof.
  unfold constrain, TRANSITION_MS.
  assert (Hdiv : (now - start) / 1100 == (now - start) * (1 # 1100)) by field.
  rewrite Hdiv. set (p := (now - start) * (1 # 1100)).
  assert (Hp : now - start == 1100 * p) by (subst p; field).
  destruct (Q.min_spec p 1) as [[Hc Hmin]|[Hc Hmin]];
    destruct (Q.max_spec (Qmin p 1) 0) as [[Hd Hmax]|[Hd Hmax]];
    revert Hd Hmax; generalize (Qmax (Qmin p 1) 0);
    revert Hmin; generalize (Qmin p 1); intros m Hmin M Hd Hmax; lra.
Qed.

Lemma transition_timing (now : Q) (s : state) :
  mode s = Transition ->
  (now - tStart s < 1100 -> fst (draw now s) = s)
  /\ (1100 <= now - tStart s -> mode (fst (draw now s)) = Original).
Proof.
  intros Hmode. split.
  - intros Hearly. apply draw_pending; [exact Hmode|].
    apply Qnot_le_lt. rewrite progress_complete. unfold TRANSITION_MS. lra.
  - intros Hlate.
    destruct (draw_commit now s Hmode) as (_ & _ & _ & Hm & _); [|exact Hm].
    apply progress_complete. exact Hlate.
Qed.

(** X5: in "transition", a frame leaves the whole state untouched as long
    as less than 1100 ms have passed since the release (also when the clock
    reads less than the release time), and it commits to "original" with the
    original cuts as soon as 1100 ms or more have passed. *)
Theorem transition_commits_at_duration (now : Q) (s : state) :
  mode s = Transition ->
  (now - tStart s < 1100 -> fst (draw now s) = s)
  /\ (1100 <= now - tStart s ->
      mode (fst (draw now s)) = Original
      /\ vLines (fst (draw now s)) = originalV s
      /\ hLines (fst (draw now s)) = originalH s).
Proof.
  intros Hmode. split.
  - intros Hearly. apply draw_pending; [exact Hmode|].
    apply Qnot_le_lt. rewrite progress_complete. unfold TRANSITION_MS. lra.
  - intros Hlate.
    destruct (draw_commit now s Hmode) as (Hv & Hh & _ & Hm & _).
    + apply progress_complete. exact Hlate.
    + now repeat split.
Qed.

Lemma transition_commits_at_duration_witness :
  let s := mouseReleased 250 (setup initial) in
  fst (draw 1349 s) = s /\ mode (fst (draw 1350 s)) = Original.
Proof.
  intros s.
  destruct (transition_commits_at_duration 1349 s eq_refl) as [Hearly _].
  destruct (transition_commits_at_duration 1350 s eq_refl) as [_ Hlate].
  split.
  - apply Hearly. vm_compute. reflexivity.
  - apply Hlate. vm_compute. discriminate.
Defined.

(** ** A release followed by enough time restores the original picture *)

Section Restore.

Variable rnd : nat -> sample.

Lemma run_app events more :
  run rnd (events ++ more) = fold_left (step rnd) more (run rnd events).
Proof. unfold run. apply fold_left_app. Qed.

Lemma frames_keep_waiting (t0 : Q) (mid : list event) :
  forallb isFrame mid = true ->
  forall s,
  (mode s = Transition /\ tStart s = t0) \/ mode s = Original ->
  let s' := fold_left (step rnd) mid s in
  (mode s' = Transition /\ tStart s' = t0) \/ mode s' = Original.
Proof.
  induction mid as [|e mid IH]; intros Hmid s Hs; [exact Hs|].
  cbn [forallb] in Hmid. apply andb_true_iff in Hmid as [He Hmid].
  destruct e as [| |now]; try discriminate. cbn [fold_left step].
  apply (IH Hmid). destruct Hs as [[Hmode Hstart]|Hmode].
  - destruct (Qlt_le_dec (constrain ((now - tStart s) / TRANSITION_MS) 0 1) 1) as [Hu|Hu].
    + rewrite draw_pending by assumption. now left.
    + right. now destruct (draw_commit now s Hmode Hu) as (_ & _ & _ & Hm & _).
  - rewrite draw_resting by congruence. now right.
Qed.

Lemma original_frame (s : state) (now now' : Q) :
  inv s -> mode s = Original ->
  snd (draw now s) = snd (draw now' (setup initial)).
Proof.
  intros [HV HH _ Hm _ _ _ Ho _] Hmode.
  destruct (Ho Hmode) as [Hv Hh].
  unfold draw. rewrite Hmode. cbn [mode setup initial snd].
  rewrite Hm, Hv, Hh, HV, HH. reflexivity.
Qed.

(** X6: from any reachable state, a release at time [t0] followed by any
    number of frames and then a frame at [t0 + 1100] ms or later ends in
    "original" with the original cuts and cells, and from then on every frame
    is, call for call, the frame drawn right after setup. *)
Theorem release_then_wait_restores
    (events mid : list event) (t0 t1 : Q) :
  forallb isFrame mid = true ->
  t0 + 1100 <= t1 ->
  let s := run rnd (events ++ Release t0 :: mid ++ [Frame t1]) in
  mode s = Original
  /\ vLines s = [90; 320; 360; 560] /\ hLines s = [90; 250; 290; 380; 540]
  /\ cells s = cells (setup initial)
  /\ forall now now', snd (draw now s) = snd (draw now' (setup initial)).
Proof.
  intros Hmid Hlate s.
  pose proof (inv_run rnd (events ++ Release t0 :: mid ++ [Frame t1])) as Hinv.
  fold s in Hinv.
  assert (Hmode : mode s = Original).
  { subst s. rewrite run_app. cbn [fold_left step]. rewrite fold_left_app.
    cbn [fold_left step].
    pose proof (frames_keep_waiting t0 mid Hmid (mouseReleased t0 (run rnd events))
                  (or_introl (conj eq_refl eq_refl))) as Hwait.
    cbv zeta in Hwait.
    destruct Hwait as [[Hm Hstart]|Hm].
    - destruct (transition_timing t1 _ Hm) as [_ Hcommit].
      apply Hcommit. rewrite Hstart. lra.
    - now rewrite draw_resting by congruence. }
  destruct Hinv as [HV HH Ht Hm HvC HhC Hc Ho Hr].
  destruct (Ho Hmode) as [Hv Hh].
  split; [exact Hmode|]. split; [now rewrite Hv|]. split; [now rewrite Hh|].
  split; [rewrite Hc, Hv, Hh, HV, HH; reflexivity|].
  intros now now'. apply original_frame; [|exact Hmode].
  now constructor.
Qed.

End Restore.

Lemma release_then_wait_restores_witness :
  let s := run eighths ([Press] ++ Release 250 :: [Frame 300; Frame 900] ++ [Frame 1350]) in
  mode s = Original
  /\ vLines s = [90; 320; 360; 560] /\ hLines s = [90; 250; 290; 380; 540].
Proof.
  intros s.
  assert (Hlate : 250 + 1100 <= 1350) by (vm_compute; discriminate).
  destruct (release_then_wait_restores eighths [Press] [Frame 300; Frame 900] 250 1350
              eq_refl Hlate) as (Hm & Hv & Hh & _).
  repeat split; assumption.
Defined.

(** ** The layers of a frame *)

Lemma drawColorsFromMap_no_stroke (m : gmap Z color) vArr hArr :
  forallb (fun c => negb (isStroke c)) (drawColorsFromMap m vArr hArr) = true.
Proof.
  unfold drawColorsFromMap. cbn [forallb isStroke negb andb].
  apply forallb_forall. intros c Hc.
  apply in_flat_map in Hc as (j & _ & Hc). apply in_flat_map in Hc as (i & _ & Hc).
  match type of Hc with context [m !! ?k] => destruct (m !! k) end.
  - destruct Hc as [<-|[<-|[]]]; reflexivity.
  - destruct Hc.
Qed.

(** X7: every frame, in every state, is the background, then the fills
    and rectangles (none in "transition"), then the grid pass; no fill or
    rectangle is issued after the first stroke, so the grid lines are always
    painted over the colours. *)
Theorem frame_layers (now : Q) (s : state) :
  exists fills vArr hArr,
    snd (draw now s) = Background 255 :: fills ++ drawGrid vArr hArr
    /\ forallb (fun c => negb (isStroke c)) fills = true
    /\ colored (drawGrid vArr hArr) = false
    /\ (mode s = Transition -> fills = []).
Proof.
  destruct (mode s) eqn:Hmode.
  - exists (drawColorsFromMap (originalColorsMap s) (vLines s) (hLines s)),
      (map Num (vLines s)), (map Num (hLines s)).
    unfold draw. rewrite Hmode. cbn [snd].
    repeat split; [apply drawColorsFromMap_no_stroke | apply drawGrid_not_colored
                  | discriminate].
  - exists (drawColorsFromMap (randomColorsMap s) (vLines s) (hLines s)),
      (map Num (vLines s)), (map Num (hLines s)).
    unfold draw. rewrite Hmode. cbn [snd].
    repeat split; [apply drawColorsFromMap_no_stroke | apply drawGrid_not_colored
                  | discriminate].
  - eexists [], _, _. rewrite (draw_frame_transition now s Hmode).
    repeat split. apply drawGrid_not_colored.
Qed.

(** ** The cells tile the canvas *)


Lemma sumOver_scale (f : nat -> Q) (c : Q) (n : nat) : forall start,
  sumOver (fun i => f i * c) start n == sumOver f start n * c.
Proof.
  unfold sumOver. induction n as [|n IH]; intros start; simpl; [ring|].
  rewrite IH. ring.
Qed.





Lemma boundaries_first arr extent : at_ (boundaries arr extent) 0 = 0.
Proof. reflexivity. Qed.

Lemma boundaries_last arr extent :
  at_ (boundaries arr extent) (length arr + 1) = extent.
Proof.
  unfold at_, boundaries. rewrite Nat.add_1_r. cbn [nth].
  rewrite app_nth2 by (rewrite sortAsc_length; lia).
  rewrite sortAsc_length, Nat.sub_diag. reflexivity.
Qed.


(** ** The index lookups find the interval of a point inside the range *)

Lemma interval_exists (x : Q) (xs : list Q) (n : nat) :
  at_ xs 0 <= x -> x < at_ xs n -> exists i, (i < n)%nat /\ inInterval x xs i.
Proof.
  intros Hfirst. induction n as [|n IH]; intros Hlast; [lra|].
  destruct (Qlt_le_dec x (at_ xs n)) as [Hlt|Hge].
  - destruct (IH Hlt) as (i & Hi & Hin). exists i. split; [lia | exact Hin].
  - exists n. split; [lia|]. unfold inInterval. rewrite Nat.add_1_r. now split.
Qed.

Lemma sorted_at_le (xs : list Q) (i j : nat) :
  StronglySorted Qle xs -> (i <= j < length xs)%nat -> at_ xs i <= at_ xs j.
Proof.
  intros Hsorted Hij. unfold at_.
  destruct (Nat.eq_dec i j) as [->|Hne]; [lra|].
  destruct (lookup_lt_is_Some_2 xs i) as [p Hp]; [lia|].
  destruct (lookup_lt_is_Some_2 xs j) as [q Hq]; [lia|].
  rewrite !nth_lookup, Hp, Hq. simpl.
  apply (pairs_lookup _ _ (sorted_pairs _ Hsorted) i j p q); [lia | assumption..].
Qed.

(** X9: for a boundary array with at least two entries and a coordinate
    from the first boundary up to, but not including, the last one,
    [xIndexFor] and [yIndexFor] return the first interval that contains the
    coordinate; when the boundaries are sorted it is the only one. *)
Theorem indexFor_locates (x : Q) (xs : list Q) :
  (2 <= length xs)%nat ->
  at_ xs 0 <= x -> x < at_ xs (length xs - 1) ->
  exists i,
    xIndexFor x xs = Z.of_nat i /\ yIndexFor x xs = Z.of_nat i
    /\ (i + 1 < length xs)%nat
    /\ inInterval x xs i
    /\ (forall i', (i' < i)%nat -> ~ inInterval x xs i')
    /\ (StronglySorted Qle xs ->
        forall i', (i' + 1 < length xs)%nat -> inInterval x xs i' -> i' = i).
Proof.
  intros Hlen Hfirst Hlast. rewrite (yIndexFor_is_xIndexFor x xs).
  unfold xIndexFor.
  destruct (xIndexFor_loop x xs 0 (length xs - 1)) as [i|] eqn:E.
  - apply xIndexFor_loop_Some in E as (Hi & Hin & Hmin).
    exists i. repeat split; try reflexivity; try lia; try apply Hin.
    + intros i' Hi'. apply Hmin. lia.
    + intros Hsorted i' Hi' Hin'.
      destruct (Nat.lt_trichotomy i' i) as [Hlt|[->|Hgt]]; [|reflexivity|].
      * exfalso. apply (Hmin i'); [lia | exact Hin'].
      * exfalso. destruct Hin as [_ Hup]. destruct Hin' as [Hlow _].
        pose proof (sorted_at_le xs (i + 1) i' Hsorted ltac:(lia)). lra.
  - exfalso. destruct (interval_exists x xs (length xs - 1) Hfirst Hlast) as (i & Hi & Hin).
    apply (xIndexFor_loop_None _ _ _ _ E i); [lia | exact Hin].
Qed.

Lemma indexFor_locates_witness :
  let xs : list Q := [0; 90; 320; 360; 560; 820] in
  exists i, xIndexFor 340 xs = Z.of_nat i /\ inInterval 340 xs i.
Proof.
  intros xs.
  destruct (indexFor_locates 340 xs) as (i & Hx & _ & _ & Hin & _).
  - simpl. lia.
  - vm_compute. discriminate.
  - vm_compute. reflexivity.
  - exists i. now split.
Defined.

(** ** The anchor colour map *)

Lemma colorMapFromTargets_snoc (targets : list target) (t : target) vArr hArr :
  colorMapFromTargets (targets ++ [t]) vArr hArr
  = <[targetIndex t vArr hArr := col t]> (colorMapFromTargets targets vArr hArr).
Proof. unfold colorMapFromTargets. rewrite fold_left_app. reflexivity. Qed.

Lemma targetIndex_range (t : target) vArr hArr :
  (0 <= targetIndex t vArr hArr
   < (Z.of_nat (length vArr) + 1) * (Z.of_nat (length hArr) + 1))%Z.
Proof.
  unfold targetIndex.
  pose proof (xIndexFor_range (constrain (pcx t) 0 1 * W) (boundaries vArr W)) as Hx.
  pose proof (xIndexFor_range (constrain (pcy t) 0 1 * H) (boundaries hArr H)) as Hy.
  rewrite <- (yIndexFor_is_xIndexFor _ (boundaries hArr H)) in Hy.
  rewrite boundaries_length in Hx, Hy |- *.
  specialize (Hx ltac:(lia)). specialize (Hy ltac:(lia)). nia.
Qed.

(** X10: every key of the map built by [colorMapFromTargets] is the index
    of a cell of the grid, between 0 and (m+1)*(n+1) - 1, and the map has at
    most one entry per anchor; without anchors it is empty. *)
Theorem colorMapFromTargets_keys (targets : list target) (vArr hArr : list Q) :
  (forall key, is_Some (colorMapFromTargets targets vArr hArr !! key) ->
     (0 <= key < (Z.of_nat (length vArr) + 1) * (Z.of_nat (length hArr) + 1))%Z)
  /\ (size (colorMapFromTargets targets vArr hArr) <= length targets)%nat
  /\ colorMapFromTargets [] vArr hArr = ∅.
Proof.
  split; [|split; [|reflexivity]].
  - induction targets as [|t targets IH] using rev_ind; intros key Hkey.
    + change (is_Some ((∅ : gmap Z color) !! key)) in Hkey.
      rewrite lookup_empty in Hkey. now destruct Hkey.
    + rewrite colorMapFromTargets_snoc in Hkey.
      destruct (decide (targetIndex t vArr hArr = key)) as [<-|Hne].
      * apply targetIndex_range.
      * rewrite lookup_insert_ne in Hkey by exact Hne. now apply IH.
  - induction targets as [|t targets IH] using rev_ind.
    { change (colorMapFromTargets [] vArr hArr) with (∅ : gmap Z color).
      now rewrite map_size_empty. }
    rewrite colorMapFromTargets_snoc, length_app, map_size_insert. simpl.
    destruct (colorMapFromTargets targets vArr hArr !! targetIndex t vArr hArr);
      simpl; lia.
Qed.

(** X11: a cell index is mapped to the colour of the last anchor, in
    list order, that resolves to it, and is absent from the map when no anchor
    resolves to it: later anchors override earlier ones. *)
Theorem colorMapFromTargets_last_wins
    (targets : list target) (vArr hArr : list Q) (key : Z) :
  colorMapFromTargets targets vArr hArr !! key
  = col <$> last (filter (fun t => targetIndex t vArr hArr = key) targets).
Proof.
  induction targets as [|t targets IH] using rev_ind; [reflexivity|].
  rewrite colorMapFromTargets_snoc, filter_app.
  destruct (decide (targetIndex t vArr hArr = key)) as [Heq|Hne].
  - rewrite filter_cons_True by exact Heq. rewrite filter_nil, last_snoc.
    rewrite Heq, lookup_insert_eq. reflexivity.
  - rewrite filter_cons_False by exact Hne. rewrite filter_nil, app_nil_r.
    rewrite lookup_insert_ne by exact Hne. exact IH.
Qed.

(** ** What is painted are the mapped cells *)

Lemma flat_map_all_nil (A B : Type) (f : A -> list B) (l : list A) :
  (forall a, In a l -> f a = []) -> flat_map f l = [].
Proof.
  induction l as [|a l IH]; intros Hf; simpl; [reflexivity|].
  rewrite (Hf a) by now left. apply IH. intros a' Ha'. apply Hf. now right.
Qed.

Lemma cellKey_index (vArr : list Q) (i j : nat) (x y w h : Q) :
  cellKey (length vArr + 1) (mkCell x y w h i j)
  = (Z.of_nat j * (Z.of_nat (length (boundaries vArr W)) - 1) + Z.of_nat i)%Z.
Proof. unfold cellKey, linearIndex. rewrite boundaries_length. simpl. lia. Qed.

Lemma in_computeCellsFor (vArr hArr : list Q) (c : cell) :
  In c (computeCellsFor vArr hArr) <->
  exists i j, (i < length vArr + 1)%nat /\ (j < length hArr + 1)%nat
    /\ c = mkCell (at_ (boundaries vArr W) i) (at_ (boundaries hArr H) j)
                  (at_ (boundaries vArr W) (i + 1) - at_ (boundaries vArr W) i)
                  (at_ (boundaries hArr H) (j + 1) - at_ (boundaries hArr H) j) i j.
Proof.
  unfold computeCellsFor. rewrite in_flat_map. rewrite !boundaries_length. split.
  - intros (j & Hj & Hc). apply in_map_iff in Hc as (i & <- & Hi).
    apply in_seq in Hi, Hj. exists i, j. repeat split; lia.
  - intros (i & j & Hi & Hj & ->). exists j. split; [apply in_seq; lia|].
    apply in_map_iff. exists i. split; [reflexivity | apply in_seq; lia].
Qed.

Lemma in_drawColorsFromMap (m : gmap Z color) (vArr hArr : list Q) (d : cmd) :
  In d (drawColorsFromMap m vArr hArr) <->
  d = NoStroke
  \/ exists c col, In c (computeCellsFor vArr hArr)
       /\ m !! cellKey (length vArr + 1) c = Some col
       /\ (d = Fill col \/ d = Rect (cell_x c) (cell_y c) (cell_w c) (cell_h c)).
Proof.
  unfold drawColorsFromMap. cbn [In]. split.
  - intros [<-|Hd]; [now left|right].
    apply in_flat_map in Hd as (j & Hj & Hd). apply in_flat_map in Hd as (i & Hi & Hd).
    apply in_seq in Hi, Hj. rewrite boundaries_length in Hi, Hj.
    rewrite <- (cellKey_index vArr i j
                  (at_ (boundaries vArr W) i) (at_ (boundaries hArr H) j)
                  (at_ (boundaries vArr W) (i + 1) - at_ (boundaries vArr W) i)
                  (at_ (boundaries hArr H) (j + 1) - at_ (boundaries hArr H) j)) in Hd.
    set (c := mkCell (at_ (boundaries vArr W) i) (at_ (boundaries hArr H) j)
                (at_ (boundaries vArr W) (i + 1) - at_ (boundaries vArr W) i)
                (at_ (boundaries hArr H) (j + 1) - at_ (boundaries hArr H) j) i j) in *.
    destruct (m !! cellKey (length vArr + 1) c) as [col|] eqn:E; [|destruct Hd].
    exists c, col. split; [|split; [exact E|]].
    + apply in_computeCellsFor. exists i, j. repeat split; lia.
    + destruct Hd as [<-|[<-|[]]]; [now left | now right].
  - intros [->|(c & col & Hc & Hkey & Hd)]; [now left|right].
    apply in_computeCellsFor in Hc as (i & j & Hi & Hj & ->).
    apply in_flat_map. exists j. split; [apply in_seq; rewrite boundaries_length; lia|].
    apply in_flat_map. exists i. split; [apply in_seq; rewrite boundaries_length; lia|].
    rewrite cellKey_index in Hkey. rewrite Hkey. cbn [In cell_x cell_y cell_w cell_h] in *.
    destruct Hd as [->| ->]; [now left | right; now left].
Qed.

(** X12: [drawColorsFromMap] paints exactly the cells of
    [computeCellsFor] whose linear index has an entry in the map: a fill
    colour is set if and only if it is the entry of such a cell, every
    rectangle drawn has the position and size of such a cell, and a key that
    is not the index of a cell (a stale key) is never painted. *)
Theorem drawColorsFromMap_paints_mapped_cells
    (m : gmap Z color) (vArr hArr : list Q) :
  (forall col,
     In (Fill col) (drawColorsFromMap m vArr hArr) <->
     exists c, In c (computeCellsFor vArr hArr)
               /\ m !! cellKey (length vArr + 1) c = Some col)
  /\ (forall x y w h,
     In (Rect x y w h) (drawColorsFromMap m vArr hArr) <->
     exists c, In c (computeCellsFor vArr hArr)
               /\ is_Some (m !! cellKey (length vArr + 1) c)
               /\ Rect x y w h = Rect (cell_x c) (cell_y c) (cell_w c) (cell_h c))
  /\ ((forall c, In c (computeCellsFor vArr hArr) ->
         m !! cellKey (length vArr + 1) c = None) ->
      drawColorsFromMap m vArr hArr = [NoStroke]).
Proof.
  split; [|split].
  - intros col. rewrite in_drawColorsFromMap. split.
    + intros [Hd|(c & col' & Hc & Hkey & [[= ->]|Hd])]; try discriminate. eauto.
    + intros (c & Hc & Hkey). right. exists c, col. auto.
  - intros x y w h. rewrite in_drawColorsFromMap. split.
    + intros [Hd|(c & col' & Hc & Hkey & [Hd|Hd])]; try discriminate.
      exists c. rewrite Hkey. eauto.
    + intros (c & Hc & [col Hkey] & Hd). right. exists c, col. auto.
  - intros Hnone. unfold drawColorsFromMap. f_equal.
    apply flat_map_all_nil. intros j Hj. apply flat_map_all_nil. intros i Hi.
    apply in_seq in Hi, Hj. rewrite boundaries_length in Hi, Hj.
    rewrite <- (cellKey_index vArr i j
                  (at_ (boundaries vArr W) i) (at_ (boundaries hArr H) j)
                  (at_ (boundaries vArr W) (i + 1) - at_ (boundaries vArr W) i)
                  (at_ (boundaries hArr H) (j + 1) - at_ (boundaries hArr H) j)).
    rewrite Hnone; [reflexivity|].
    apply in_computeCellsFor. exists i, j. repeat split; lia.
Qed.

(** ** The random colour map after a press *)

Lemma assign_prefix (palette : list color) (indices : list Z) :
  NoDup indices ->
  forall k, (k <= Nat.min (length palette) (length indices))%nat ->
  let m := fold_left (fun (m : gmap Z color) i =>
             match indices !! i, palette !! (i mod length palette)%nat with
             | Some key, Some c => <[key := c]> m
             | _, _ => m
             end) (seq 0 k) ∅ in
  size m = k
  /\ forall key c, m !! key = Some c <->
       exists i, (i < k)%nat /\ indices !! i = Some key /\ palette !! i = Some c.
Proof.
  intros Hnodup. induction k as [|k IH]; intros Hk; cbv zeta.
  - cbn [seq fold_left]. split; [apply map_size_empty|].
    intros key c. rewrite lookup_empty. split; [discriminate|].
    intros (i & Hi & _). lia.
  - rewrite seq_S, fold_left_app. cbn [fold_left Nat.add].
    destruct (IH ltac:(lia)) as [Hsize Hlook].
    set (m := fold_left _ (seq 0 k) ∅) in *.
    destruct (lookup_lt_is_Some_2 indices k) as [key Hkey]; [lia|].
    destruct (lookup_lt_is_Some_2 palette k) as [c Hc]; [lia|].
    rewrite Hkey, Nat.mod_small, Hc by lia.
    assert (Hfresh : m !! key = None).
    { destruct (m !! key) as [c'|] eqn:E; [|reflexivity].
      apply Hlook in E as (i & Hi & Hik & _).
      pose proof (NoDup_lookup _ _ _ _ Hnodup Hik Hkey). lia. }
    split; [rewrite map_size_insert_None by exact Hfresh; lia|].
    intros key' c'. destruct (decide (key = key')) as [<-|Hne].
    + rewrite lookup_insert_eq. split.
      * intros [= <-]. exists k. repeat split; [lia | assumption..].
      * intros (i & Hi & Hik & Hic).
        pose proof (NoDup_lookup _ _ _ _ Hnodup Hik Hkey) as ->. congruence.
    + rewrite lookup_insert_ne by exact Hne. rewrite Hlook. split.
      * intros (i & Hi & Hik & Hic). exists i. repeat split; [lia | assumption..].
      * intros (i & Hi & Hik & Hic). exists i. repeat split; try assumption.
        destruct (Nat.eq_dec i k) as [->|]; [congruence | lia].
Qed.

(** X13: after a press in any reachable state the random colour map has
    exactly min(6, number of cells) entries; every key is the index of a cell
    of the new grid and every colour is one of the anchors' colours. *)
Theorem press_random_map (rnd : nat -> sample) (events : list event) :
  let s := run rnd (events ++ [Press]) in
  size (randomColorsMap s) = Nat.min 6 (length (cells s))
  /\ length (cells s) = ((length (vLines s) + 1) * (length (hLines s) + 1))%nat
  /\ forall key c, randomColorsMap s !! key = Some c ->
       (0 <= key < Z.of_nat (length (cells s)))%Z
       /\ In c (map col (originalColorTargets s)).
Proof.
  intros s. subst s. rewrite run_app. cbn [fold_left step].
  destruct (inv_run rnd events) as [HV HH Ht _ _ _ _ _ _].
  unfold mousePressed.
  destruct (makeRandomLines rnd (length (originalV (run rnd events))) W MARGIN 60
              (rngPos (run rnd events))) as [vLines' k1].
  destruct (makeRandomLines rnd (length (originalH (run rnd events))) H MARGIN 60 k1)
    as [hLines' k2].
  set (n := length (computeCellsFor vLines' hLines')).
  destruct (shuffle_loop_Permutation rnd (length (map Z.of_nat (seq 0 n)) - 1)
              (map Z.of_nat (seq 0 n)) k2) as [Hperm _].
  fold (shuffleInPlace rnd (map Z.of_nat (seq 0 n)) k2) in Hperm.
  destruct (shuffleInPlace rnd (map Z.of_nat (seq 0 n)) k2) as [indices k3].
  cbn [fst] in Hperm. fields.
  assert (Hnodup : NoDup indices).
  { rewrite Hperm. apply (NoDup_fmap_2 _). apply NoDup_seq. }
  assert (Hlen : length indices = n).
  { rewrite Hperm. now rewrite length_map, length_seq. }
  assert (Hpal : length (map col (originalColorTargets (run rnd events))) = 6%nat)
    by (rewrite Ht; reflexivity).
  destruct (assign_prefix _ _ Hnodup
              (Nat.min (length (map col (originalColorTargets (run rnd events))))
                       (length indices)) (Nat.le_refl _)) as [Hsize Hlook].
  fold (assignPalette (map col (originalColorTargets (run rnd events))) indices)
    in Hsize, Hlook.
  split; [now rewrite Hsize, Hpal, Hlen|].
  split; [apply computeCellsFor_length|].
  intros key c Hkey. apply Hlook in Hkey as (i & Hi & Hik & Hic). split.
  - assert (Hin : key ∈ map Z.of_nat (seq 0 n)).
    { rewrite <- Hperm. eapply list_elem_of_lookup_2. exact Hik. }
    apply list_elem_of_In, in_map_iff in Hin as (j & <- & Hj).
    apply in_seq in Hj. lia.
  - apply list_elem_of_In. eapply list_elem_of_lookup_2. exact Hic.
Qed.

(** ** The boundaries never collapse *)

Lemma pairs_and (R1 R2 : Q -> Q -> Prop) (l : list Q) :
  ForallOrdPairs R1 l -> ForallOrdPairs R2 l ->
  ForallOrdPairs (fun p q => R1 p q /\ R2 p q) l.
Proof.
  induction 1 as [|a l Ha Hl IH]; intros H2; [constructor|].
  inversion H2 as [|a' l' Ha2 Hl2]; subst. constructor; [|now apply IH].
  rewrite Forall_forall in *. intros x Hx. split; [now apply Ha | now apply Ha2].
Qed.

Lemma pairs_sorted (R : Q -> Q -> Prop) (l : list Q) :
  ForallOrdPairs R l -> StronglySorted R l.
Proof. induction 1; constructor; assumption. Qed.

Lemma pairs_impl (R1 R2 : Q -> Q -> Prop) (l : list Q) :
  (forall p q, R1 p q -> R2 p q) -> ForallOrdPairs R1 l -> ForallOrdPairs R2 l.
Proof.
  intros Himp. induction 1 as [|a l Ha Hl IH]; constructor; [|exact IH].
  eapply Forall_impl; [exact Ha|]. intros x. apply Himp.
Qed.

Lemma sorted_pairs_rel (R : Q -> Q -> Prop) (l : list Q) :
  StronglySorted R l -> ForallOrdPairs R l.
Proof. induction 1; constructor; assumption. Qed.

Lemma sorted_snoc (l : list Q) (e : Q) :
  StronglySorted Qlt l -> Forall (fun x => x < e) l -> StronglySorted Qlt (l ++ [e]).
Proof.
  induction 1 as [|a l Hl IH Ha]; intros He; simpl; [repeat constructor|].
  apply Forall_cons_iff in He as [Hae He]. constructor; [now apply IH|].
  apply Forall_app. split; [exact Ha | now constructor].
Qed.

Lemma boundaries_increasing (arr : list Q) (extent : Q) :
  0 < extent -> properCuts extent arr -> StronglySorted Qlt (boundaries arr extent).
Proof.
  intros Hext [Hrange Hdistinct]. unfold boundaries.
  assert (Hsorted : StronglySorted Qlt (sortAsc arr)).
  { apply pairs_sorted.
    apply (pairs_impl (fun p q => p <= q /\ ~ p == q)).
    - intros p q [Hle Hne]. apply Qle_lteq in Hle as [Hlt|Heq]; [exact Hlt | contradiction].
    - apply pairs_and; [apply sorted_pairs, sortAsc_sorted|].
      apply pairs_sortAsc; [|exact Hdistinct].
      intros p q Hne Heq. apply Hne. now symmetry. }
  apply (Forall_sortAsc (fun x => 0 < x /\ x < extent)) in Hrange.
  constructor.
  - apply sorted_snoc; [exact Hsorted|].
    eapply Forall_impl; [exact Hrange|]. intros x [_ Hx]. exact Hx.
  - apply Forall_app. split; [|now constructor].
    eapply Forall_impl; [exact Hrange|]. intros x [Hx _]. exact Hx.
Qed.

Lemma sorted_at_lt (xs : list Q) (i j : nat) :
  StronglySorted Qlt xs -> (i < j < length xs)%nat -> at_ xs i < at_ xs j.
Proof.
  intros Hsorted Hij. unfold at_.
  destruct (lookup_lt_is_Some_2 xs i) as [p Hp]; [lia|].
  destruct (lookup_lt_is_Some_2 xs j) as [q Hq]; [lia|].
  rewrite !nth_lookup, Hp, Hq. simpl.
  apply (pairs_lookup _ _ (sorted_pairs_rel _ _ Hsorted) i j p q); [lia | assumption..].
Qed.

Lemma properCuts_originalV : properCuts W [90; 320; 360; 560].
Proof.
  split.
  - repeat constructor.
  - repeat constructor; intros Heq; discriminate Heq.
Qed.

Lemma properCuts_originalH : properCuts H [90; 250; 290; 380; 540].
Proof.
  split.
  - repeat constructor.
  - repeat constructor; intros Heq; discriminate Heq.
Qed.

Lemma properCuts_random (rnd : nat -> sample) (count : nat) (span : Q) (k : nat) :
  2 * (MARGIN + LINE_W) <= span ->
  properCuts span (fst (makeRandomLines rnd count span MARGIN 60 k)).
Proof.
  intros Hspan. unfold MARGIN, LINE_W in Hspan.
  pose proof (makeRandomLines_inv rnd count span MARGIN 60
                (fun x => MARGIN + LINE_W <= x /\ x <= span - MARGIN - LINE_W) k) as Hinv.
  destruct (makeRandomLines rnd count span MARGIN 60 k) as [lines k'].
  destruct Hinv as (_ & Hrange & Hsep & _).
  { intros k0. apply random2_range. unfold MARGIN, LINE_W. lra. }
  cbn [fst]. split.
  - eapply Forall_impl; [exact Hrange|]. unfold MARGIN, LINE_W. intros x [Hlo Hhi]. lra.
  - apply (pairs_impl (separated 60)); [|exact Hsep].
    unfold separated. intros p q Hgap Heq.
    assert (Hzero : Qabs (p - q) == 0).
    { assert (Hd : p - q == 0) by lra. rewrite Hd. reflexivity. }
    lra.
Qed.

Section Geometry.

Variable rnd : nat -> sample.

Lemma properCuts_step (s : state) (e : event) :
  inv s ->
  properCuts W (vLines s) /\ properCuts H (hLines s) ->
  properCuts W (vLines (step rnd s e)) /\ properCuts H (hLines (step rnd s e)).
Proof.
  intros [HV HH _ _ _ _ _ _ _] Hs. destruct e as [|now|now]; cbn [step].
  - unfold mousePressed.
    pose proof (properCuts_random rnd (length (originalV s)) W (rngPos s)
                  ltac:(vm_compute; discriminate)) as Hv.
    destruct (makeRandomLines rnd (length (originalV s)) W MARGIN 60 (rngPos s))
      as [vLines' k1].
    pose proof (properCuts_random rnd (length (originalH s)) H k1
                  ltac:(vm_compute; discriminate)) as Hh.
    destruct (makeRandomLines rnd (length (originalH s)) H MARGIN 60 k1)
      as [hLines' k2].
    destruct (shuffleInPlace rnd _ k2). fields. now split.
  - exact Hs.
  - destruct (mode s) eqn:Hmode; [rewrite draw_resting by congruence; exact Hs ..|].
    destruct (Qlt_le_dec (constrain ((now - tStart s) / TRANSITION_MS) 0 1) 1) as [Hu|Hu].
    + now rewrite draw_pending.
    + destruct (draw_commit now s Hmode Hu) as (-> & -> & _).
      rewrite HV, HH. split; [apply properCuts_originalV | apply properCuts_originalH].
Qed.

Lemma properCuts_run (events : list event) :
  properCuts W (vLines (run rnd events)) /\ properCuts H (hLines (run rnd events)).
Proof.
  induction events as [|e events IH] using rev_ind.
  - split; [apply properCuts_originalV | apply properCuts_originalH].
  - rewrite run_app. cbn [fold_left]. apply properCuts_step; [apply inv_run | exact IH].
Qed.

(** X14: in every reachable state the boundaries of both axes are strictly
    increasing, so every cell of the state has positive width and height and
    lies inside the canvas. *)
Theorem reachable_cells_positive (events : list event) :
  let s := run rnd events in
  StronglySorted Qlt (boundaries (vLines s) W)
  /\ StronglySorted Qlt (boundaries (hLines s) H)
  /\ forall c, In c (cells s) ->
       (0 < cell_w c /\ 0 < cell_h c)
       /\ (0 <= cell_x c /\ cell_x c + cell_w c <= W)
       /\ (0 <= cell_y c /\ cell_y c + cell_h c <= H).
Proof.
  intros s. destruct (properCuts_run events) as [Hv Hh]. fold s in Hv, Hh.
  apply boundaries_increasing in Hv; [|reflexivity].
  apply boundaries_increasing in Hh; [|reflexivity].
  split; [exact Hv|]. split; [exact Hh|].
  intros c Hc. pose proof (inv_cells _ (inv_run rnd events)) as Hcells.
  fold s in Hcells. rewrite Hcells in Hc.
  apply in_computeCellsFor in Hc as (i & j & Hi & Hj & ->).
  cbn [cell_x cell_y cell_w cell_h].
  pose proof (boundaries_length (vLines s) W) as Lv.
  pose proof (boundaries_length (hLines s) H) as Lh.
  pose proof (sorted_at_lt _ i (i + 1) Hv ltac:(lia)) as Hw.
  pose proof (sorted_at_lt _ j (j + 1) Hh ltac:(lia)) as Hhh.
  assert (Hx0 : 0 <= at_ (boundaries (vLines s) W) i).
  { destruct i; [vm_compute; discriminate|].
    apply Qlt_le_weak. rewrite <- (boundaries_first (vLines s) W) at 1.
    apply sorted_at_lt; [exact Hv | lia]. }
  assert (Hy0 : 0 <= at_ (boundaries (hLines s) H) j).
  { destruct j; [vm_compute; discriminate|].
    apply Qlt_le_weak. rewrite <- (boundaries_first (hLines s) H) at 1.
    apply sorted_at_lt; [exact Hh | lia]. }
  assert (Hx1 : at_ (boundaries (vLines s) W) (i + 1) <= W).
  { destruct (Nat.eq_dec (i + 1)%nat (length (vLines s) + 1)%nat) as [->|Hne].
    - rewrite boundaries_last. lra.
    - apply Qlt_le_weak. rewrite <- (boundaries_last (vLines s) W) at 2.
      apply sorted_at_lt; [exact Hv | lia]. }
  assert (Hy1 : at_ (boundaries (hLines s) H) (j + 1) <= H).
  { destruct (Nat.eq_dec (j + 1)%nat (length (hLines s) + 1)%nat) as [->|Hne].
    - rewrite boundaries_last. lra.
    - apply Qlt_le_weak. rewrite <- (boundaries_last (hLines s) H) at 2.
      apply sorted_at_lt; [exact Hh | lia]. }
  repeat split; lra.
Qed.

End Geometry.

(** ** The start snapshot of a transition *)

Section Snapshot.

Variable rnd : nat -> sample.

Lemma snapshot_step (s : state) (e : event) :
  (mode s = Transition -> vStart s = vLines s /\ hStart s = hLines s) ->
  let s' := step rnd s e in
  mode s' = Transition -> vStart s' = vLines s' /\ hStart s' = hLines s'.
Proof.
  intros Hs. destruct e as [|now|now]; cbn [step]; cbv zeta.
  - unfold mousePressed.
    destruct (makeRandomLines rnd _ W MARGIN 60 (rngPos s)) as [vLines' k1].
    destruct (makeRandomLines rnd _ H MARGIN 60 k1) as [hLines' k2].
    destruct (shuffleInPlace rnd _ k2). fields. discriminate.
  - intros _. now split.
  - destruct (mode s) eqn:Hmode; [rewrite draw_resting by congruence; congruence ..|].
    destruct (Qlt_le_dec (constrain ((now - tStart s) / TRANSITION_MS) 0 1) 1) as [Hu|Hu].
    + rewrite draw_pending by assumption. intros _. now apply Hs.
    + destruct (draw_commit now s Hmode Hu) as (_ & _ & _ & -> & _). discriminate.
Qed.

Lemma snapshot_run (events : list event) :
  mode (run rnd events) = Transition ->
  vStart (run rnd events) = vLines (run rnd events)
  /\ hStart (run rnd events) = hLines (run rnd events).
Proof.
  induction events as [|e events IH] using rev_ind; [discriminate|].
  rewrite run_app. cbn [fold_left]. now apply snapshot_step.
Qed.

(** X15: in every reachable "transition" state the authoritative cuts are
    still the snapshot taken at the release (interpolated positions are never
    written back), so a second release during the transition restarts the
    clock from the same start positions, not from the positions currently on
    screen. *)
Theorem release_during_transition_restarts (events : list event) (now : Q) :
  let s := run rnd events in
  mode s = Transition ->
  (vStart s = vLines s /\ hStart s = hLines s)
  /\ (let s' := mouseReleased now s in
      mode s' = Transition /\ tStart s' = now
      /\ vStart s' = vStart s /\ hStart s' = hStart s).
Proof.
  intros s Hmode. destruct (snapshot_run events Hmode) as [Hv Hh]. fold s in Hv, Hh.
  split; [now split|]. cbv zeta. fields. now rewrite Hv, Hh.
Qed.

End Snapshot.

Lemma release_during_transition_restarts_witness :
  let s := run eighths [Press; Release 250; Frame 800] in
  let s' := mouseReleased 800 s in
  mode s' = Transition /\ tStart s' = 800 /\ vStart s' = vStart s.
Proof.
  intros s s'.
  destruct (release_during_transition_restarts eighths [Press; Release 250; Frame 800] 800)
    as (_ & Hm & Ht & Hv & _).
  - vm_compute. reflexivity.
  - repeat split; assumption.
Defined.

(** ** Missing slots and NaN *)

(** X16: the list returned by [lerpArray] contains a NaN exactly when the
    start list is shorter than the target list. *)
Theorem lerpArray_NaN_iff (a b : list Q) (t : Q) :
  In NaN (lerpArray a b t) <-> (length a < length b)%nat.
Proof.
  revert a. induction b as [|y b IH]; intros a.
  - simpl. split; [tauto | lia].
  - destruct a as [|x a].
    + split; [simpl; lia | intros _; now left].
    + rewrite lerpArray_cons. cbn [In length]. rewrite IH. split.
      * intros [Hx|Hlt]; [discriminate | lia].
      * intros Hlt. right. lia.
Qed.

(** ** When the line generator succeeds at once *)

Lemma pairs_app_mid (R : Q -> Q -> Prop) (l1 l2 : list Q) (x : Q) :
  ForallOrdPairs R (l1 ++ x :: l2) -> Forall (fun p => R p x) l1.
Proof.
  induction l1 as [|a l1 IH]; intros Hp; [constructor|].
  simpl in Hp. inversion Hp as [|a' l' Ha Hl]; subst.
  constructor; [|now apply IH].
  rewrite Forall_forall in Ha. apply Ha. apply list_elem_of_In, in_or_app. right. now left.
Qed.

Lemma makeRandomLines_loop_accepts
    (rnd : nat -> sample) (count : nat) (span margin minGap : Q) (n : nat) :
  forall left picks k,
  (n <= left)%nat -> (length picks + n)%nat = count ->
  ForallOrdPairs (separated minGap)
    (picks ++ map (fun i => random2 rnd i (margin + LINE_W) (span - margin - LINE_W))
                  (seq k n)) ->
  makeRandomLines_loop rnd left count span margin minGap picks k
  = (picks ++ map (fun i => random2 rnd i (margin + LINE_W) (span - margin - LINE_W))
                  (seq k n), (k + n)%nat).
Proof.
  induction n as [|n IH]; intros left picks k Hleft Hlen Hsep.
  - cbn [seq map]. rewrite app_nil_r, Nat.add_0_r.
    destruct left as [|left]; cbn [makeRandomLines_loop]; [reflexivity|].
    destruct (Nat.ltb_spec (length picks) count); [lia | reflexivity].
  - destruct left as [|left]; [lia|]. cbn [makeRandomLines_loop].
    destruct (Nat.ltb_spec (length picks) count); [|lia].
    cbn [seq map] in Hsep |- *.
    set (x := random2 rnd k (margin + LINE_W) (span - margin - LINE_W)) in *.
    assert (Hok : forallb (fun p => Qgeb (Qabs (p - x)) minGap) picks = true).
    { apply forallb_forall. intros p Hp. apply Qgeb_ge.
      pose proof (pairs_app_mid _ _ _ _ Hsep) as Hall.
      rewrite Forall_forall in Hall. apply Hall. now apply list_elem_of_In. }
    rewrite Hok.
    rewrite (IH left (picks ++ [x]) (S k)).
    + rewrite <- app_assoc. cbn [app]. f_equal. lia.
    + lia.
    + rewrite length_app. simpl. lia.
    + now rewrite <- app_assoc.
Qed.

(** X17: when [count] is at most 5000 and the first [count] candidates
    are pairwise at least [minGap] apart, [makeRandomLines] accepts all of
    them: it returns exactly those [count] candidates, sorted, and uses
    exactly [count] random samples. *)
Theorem makeRandomLines_accepts_separated
    (rnd : nat -> sample) (count : nat) (span margin minGap : Q) (k : nat) :
  (count <= 5000)%nat ->
  ForallOrdPairs (separated minGap)
    (map (fun i => random2 rnd i (margin + LINE_W) (span - margin - LINE_W))
         (seq k count)) ->
  makeRandomLines rnd count span margin minGap k
  = (sortAsc (map (fun i => random2 rnd i (margin + LINE_W) (span - margin - LINE_W))
                  (seq k count)), (k + count)%nat).
Proof.
  intros Hcount Hsep. unfold makeRandomLines.
  rewrite (makeRandomLines_loop_accepts rnd count span margin minGap count
             triesLimit [] k Hcount eq_refl Hsep).
  reflexivity.
Qed.

Lemma makeRandomLines_accepts_separated_witness :
  snd (makeRandomLines eighths 4 W MARGIN 60 0) = 4%nat
  /\ length (fst (makeRandomLines eighths 4 W MARGIN 60 0)) = 4%nat.
Proof.
  assert (Hcount : (4 <= 5000)%nat) by lia.
  assert (Hsep : ForallOrdPairs (separated 60)
            (map (fun i => random2 eighths i (MARGIN + LINE_W) (W - MARGIN - LINE_W))
                 (seq 0 4))).
  { repeat constructor; vm_compute; discriminate. }
  rewrite (makeRandomLines_accepts_separated eighths 4 W MARGIN 60 0 Hcount Hsep).
  split; [reflexivity|]. cbn [fst]. now rewrite sortAsc_length.
Defined.

(** ** Anchors on the edges of the canvas *)

Lemma boundaries_Forall (P : Q -> Prop) (arr : list Q) (extent : Q) :
  P 0 -> P extent -> Forall P arr -> Forall P (boundaries arr extent).
Proof.
  intros H0 He Harr. unfold boundaries. constructor; [exact H0|].
  apply Forall_app. split; [now apply Forall_sortAsc | now constructor].
Qed.

Lemma at_Forall (P : Q -> Prop) (xs : list Q) (i : nat) :
  Forall P xs -> (i < length xs)%nat -> P (at_ xs i).
Proof.
  intros Hxs Hi. unfold at_.
  destruct (lookup_lt_is_Some_2 xs i Hi) as [p Hp].
  rewrite nth_lookup, Hp. simpl. rewrite Forall_forall in Hxs.
  apply Hxs. eapply list_elem_of_lookup_2. exact Hp.
Qed.

Lemma constrain_high (x : Q) : 1 <= x -> constrain x 0 1 == 1.
Proof.
  intros Hx. unfold constrain. rewrite Q.min_r by exact Hx. apply Q.max_l. lra.
Qed.

Lemma constrain_low (x : Q) : x <= 0 -> constrain x 0 1 == 0.
Proof.
  intros Hx. unfold constrain. rewrite Q.min_l by lra. apply Q.max_r. exact Hx.
Qed.

Lemma far_edge_index (p extent : Q) (arr : list Q) :
  Forall (fun c => c <= extent) arr -> 0 <= extent -> 1 <= p ->
  xIndexFor (constrain p 0 1 * extent) (boundaries arr extent)
  = Z.of_nat (length arr).
Proof.
  intros Harr Hext Hp.
  rewrite xIndexFor_fallback; [rewrite boundaries_length; lia|].
  intros i Hi [_ Hlt].
  pose proof (at_Forall (fun c => c <= extent) (boundaries arr extent) (i + 1)
                (boundaries_Forall _ _ _ Hext (Qle_refl extent) Harr) Hi) as Hle.
  cbv beta in Hle. rewrite (constrain_high p Hp) in Hlt. lra.
Qed.

Lemma near_edge_index (p extent : Q) (arr : list Q) :
  Forall (fun c => 0 < c) arr -> 0 < extent -> p <= 0 ->
  xIndexFor (constrain p 0 1 * extent) (boundaries arr extent) = 0%Z.
Proof.
  intros Harr Hext Hp.
  apply (xIndexFor_first _ _ 0%nat).
  - rewrite boundaries_length. lia.
  - unfold inInterval. rewrite boundaries_first, (constrain_low p Hp).
    split; [lra|].
    assert (Hpos : Forall (fun c => 0 < c) (sortAsc arr ++ [extent])).
    { apply Forall_app. split; [now apply Forall_sortAsc | now constructor]. }
    pose proof (at_Forall (fun c => 0 < c) (sortAsc arr ++ [extent]) 0 Hpos) as H1.
    rewrite length_app in H1. simpl in H1. specialize (H1 ltac:(lia)).
    unfold at_, boundaries in *. cbn [Nat.add nth]. lra.
  - intros i' Hi'. lia.
Qed.

(** X18: with cut positions strictly between 0 and the canvas edge, an
    anchor whose fractional coordinate is 1 or more resolves to the last
    column (row), because the fallback closes the last interval on the right,
    and an anchor whose fractional coordinate is 0 or less resolves to the
    first column (row). *)
Theorem anchors_on_edges (pc : Q) (vArr hArr : list Q) :
  Forall (fun c => 0 < c /\ c < W) vArr -> Forall (fun c => 0 < c /\ c < H) hArr ->
  (1 <= pc ->
     xIndexFor (constrain pc 0 1 * W) (boundaries vArr W) = Z.of_nat (length vArr)
     /\ yIndexFor (constrain pc 0 1 * H) (boundaries hArr H) = Z.of_nat (length hArr))
  /\ (pc <= 0 ->
     xIndexFor (constrain pc 0 1 * W) (boundaries vArr W) = 0%Z
     /\ yIndexFor (constrain pc 0 1 * H) (boundaries hArr H) = 0%Z).
Proof.
  intros Hv Hh.
  assert (HvW : Forall (fun c => c <= W) vArr)
    by (eapply Forall_impl; [exact Hv|]; intros c [_ Hc]; lra).
  assert (HhH : Forall (fun c => c <= H) hArr)
    by (eapply Forall_impl; [exact Hh|]; intros c [_ Hc]; lra).
  assert (Hv0 : Forall (fun c => 0 < c) vArr)
    by (eapply Forall_impl; [exact Hv|]; intros c [Hc _]; exact Hc).
  assert (Hh0 : Forall (fun c => 0 < c) hArr)
    by (eapply Forall_impl; [exact Hh|]; intros c [Hc _]; exact Hc).
  split; intros Hpc;
    pose proof (yIndexFor_is_xIndexFor (constrain pc 0 1 * H) (boundaries hArr H)) as ->;
    split.
  - apply far_edge_index; [exact HvW | vm_compute; discriminate | exact Hpc].
  - apply far_edge_index; [exact HhH | vm_compute; discriminate | exact Hpc].
  - apply near_edge_index; [exact Hv0 | reflexivity | exact Hpc].
  - apply near_edge_index; [exact Hh0 | reflexivity | exact Hpc].
Qed.

Lemma anchors_on_edges_witness :
  let vArr : list Q := [90; 320; 360; 560] in
  let hArr : list Q := [90; 250; 290; 380; 540] in
  (xIndexFor (constrain 1 0 1 * W) (boundaries vArr W) = 4%Z
   /\ yIndexFor (constrain 1 0 1 * H) (boundaries hArr H) = 5%Z)
  /\ (xIndexFor (constrain (-1) 0 1 * W) (boundaries vArr W) = 0%Z
   /\ yIndexFor (constrain (-1) 0 1 * H) (boundaries hArr H) = 0%Z).
Proof.
  intros vArr hArr.
  destruct (anchors_on_edges 1 vArr hArr
              (proj1 properCuts_originalV) (proj1 properCuts_originalH)) as [Hfar _].
  destruct (anchors_on_edges (-1) vArr hArr
              (proj1 properCuts_originalV) (proj1 properCuts_originalH)) as [_ Hnear].
  split; [apply Hfar | apply Hnear]; vm_compute; discriminate.
Defined.
